(** * Shallow embedding of [backend/services/redis.py] and
      [backend/services/billing.py]

    The Redis service module keeps one process-wide client handle and a
    readiness flag in module globals.  We model the globals, the process
    environment and the trace of calls made on the external redis library
    as one [world] record, and every coroutine as a state transformer that
    either returns a value or raises a Python exception.  The redis server
    itself is an oracle: a function of the trace so far. *)

From Stdlib Require Import ZArith QArith Lia Bool Ascii.
From stdpp Require Import base list strings.

Open Scope string_scope.

(** ** Python values, exceptions and results *)

(** Identity of a [redis.Redis] object: the order of its construction. *)
Definition handle := nat.

Inductive exn :=
| ValueError (msg : string)
| AttributeError (msg : string)
| RedisError (msg : string)
| HTTPException (status_code : Z) (detail : string).

Inductive result (A : Type) :=
| Ok (a : A)
| Raise (e : exn).
Arguments Ok {A} a.
Arguments Raise {A} e.

(** The values that cross the interface of the redis client
    ([decode_responses=True], so strings rather than bytes). *)
Inductive pyval :=
| PyNone
| PyBool (b : bool)
| PyInt (z : Z)
| PyStr (s : string)
| PyStrList (l : list string)
| PyPubSub (h : handle).

Definition is_none (v : pyval) : bool :=
  match v with PyNone => true | _ => false end.

Module redis.

(** ** Constants *)

Definition REDIS_KEY_TTL : Z := 3600 * 24.

(** ** The external redis library *)

(** Commands delegated to the client object. *)
Inductive command :=
| CmdSet (key value : string) (ex : option Z) (nx : bool)
| CmdGet (key : string)
| CmdDelete (key : string)
| CmdPublish (channel message : string)
| CmdPubsub
| CmdRpush (key : string) (values : list string)
| CmdLrange (key : string) (start stop : Z)
| CmdKeys (pattern : string).

(** What the outside world sees of the module. *)
Inductive event :=
| EvFromUrl (url : string) (h : handle)
| EvPing (h : handle) (r : option exn)
| EvAclose (h : handle) (r : option exn)
| EvCommand (h : handle) (c : command) (r : result pyval).

(** The library and the server behind it.  [from_url] only parses the
    URL (no connection is opened before the first command); the replies
    depend on everything that happened before. *)
Record RedisLib := {
  url_wellformed : string -> bool;
  ping_reply : list event -> handle -> option exn;
  aclose_reply : list event -> handle -> option exn;
  reply : list event -> handle -> command -> result pyval
}.

(** ** Module globals and process environment *)

Record world := World {
  client : option handle;
  _initialized : bool;
  environ_REDIS_URL : option string;
  next_handle : nat;
  trace : list event
}.

Definition set_client (c : option handle) (w : world) : world :=
  World c (_initialized w) (environ_REDIS_URL w) (next_handle w) (trace w).

Definition set_initialized (b : bool) (w : world) : world :=
  World (client w) b (environ_REDIS_URL w) (next_handle w) (trace w).

Definition emit (ev : event) (w : world) : world :=
  World (client w) (_initialized w) (environ_REDIS_URL w) (next_handle w)
        (trace w ++ [ev]).

Definition fresh_client (url : string) (w : world) : world :=
  World (Some (next_handle w)) (_initialized w) (environ_REDIS_URL w)
        (S (next_handle w)) (trace w ++ [EvFromUrl url (next_handle w)]).

(** Module state at import time. *)
Definition start (url : option string) : world := World None false url 0 [].

(** ** Coroutines as state transformers that may raise *)

Definition M (A : Type) : Type := world -> result A * world.

Definition ret {A} (a : A) : M A := fun w => (Ok a, w).
Definition raise {A} (e : exn) : M A := fun w => (Raise e, w).
Definition bind {A B} (m : M A) (k : A -> M B) : M B :=
  fun w => match m w with
           | (Ok a, w') => k a w'
           | (Raise e, w') => (Raise e, w')
           end.
Definition try_except {A} (m : M A) (handler : exn -> M A) : M A :=
  fun w => match m w with
           | (Ok a, w') => (Ok a, w')
           | (Raise e, w') => handler e w'
           end.
Definition modify (f : world -> world) : M unit := fun w => (Ok tt, f w).
Definition read {A} (f : world -> A) : M A := fun w => (Ok (f w), w).

Notation "x <- m ;; k" := (bind m (fun x => k))
  (at level 100, m at next level, right associativity).
Notation "m ;;; k" := (bind m (fun _ => k))
  (at level 100, right associativity).

Definition no_url_msg : string :=
  "REDIS_URL environment variable is not set. Please check your Railway service variables.".
Definition bad_scheme_msg : string :=
  "Redis URL must specify one of the following schemes (redis://, rediss://, unix://)".
Definition none_attr_msg (attr : string) : string :=
  "'NoneType' object has no attribute '" ++ attr ++ "'".

(** The method of the client object behind each command. *)
Definition method_name (c : command) : string :=
  match c with
  | CmdSet _ _ _ _ => "set"
  | CmdGet _ => "get"
  | CmdDelete _ => "delete"
  | CmdPublish _ _ => "publish"
  | CmdPubsub => "pubsub"
  | CmdRpush _ _ => "rpush"
  | CmdLrange _ _ _ => "lrange"
  | CmdKeys _ => "keys"
  end.

(** An awaited call that returns nothing either completes or raises. *)
Definition outcome (r : option exn) : result unit :=
  match r with None => Ok tt | Some e => Raise e end.

Section Service.

Variable lib : RedisLib.

(** [redis.from_url(redis_url, ...)]: parses the URL, builds the object. *)
Definition from_url (url : string) : M handle :=
  fun w => if url_wellformed lib url
           then (Ok (next_handle w), fresh_client url w)
           else (Raise (ValueError bad_scheme_msg), w).

(** [initialize()], lines 18-49.  [environ_REDIS_URL] is what
    [os.getenv] answers once [load_dotenv] has run; [not redis_url] holds
    for [None] and for the empty string. *)
Definition initialize : M handle :=
  redis_url <- read environ_REDIS_URL ;;
  match redis_url with
  | None => raise (ValueError no_url_msg)
  | Some "" => raise (ValueError no_url_msg)
  | Some url => from_url url
  end.

(** [await client.ping()]: the global is read when the call is made. *)
Definition ping : M unit :=
  fun w => match client w with
           | None => (Raise (AttributeError (none_attr_msg "ping")), w)
           | Some h =>
               let r := ping_reply lib (trace w) h in
               (outcome r, emit (EvPing h r) w)
           end.

(** [initialize_async()], lines 52-71, in the three pieces separated by
    its suspension points: lines 57-59 once the lock is held, the ping,
    and lines 63-71 once the ping has answered. *)
Definition initialize_async_enter : M unit :=
  initd <- read _initialized ;;
  if negb initd then (initialize ;;; ret tt) else ret tt.

Definition initialize_async_resume (r : result unit) : M (option handle) :=
  match r with
  | Ok _ => modify (set_initialized true) ;;; read client
  | Raise e =>
      modify (set_client None) ;;; modify (set_initialized false) ;;; raise e
  end.

Definition initialize_async : M (option handle) :=
  initialize_async_enter ;;;
  (fun w => let (r, w') := ping w in initialize_async_resume r w').

(** [close()], lines 74-83.  A client object is always true, so
    [if client] tests for [None]. *)
Definition close : M unit :=
  c <- read client ;;
  match c with
  | Some h =>
      (fun w => let r := aclose_reply lib (trace w) h in
                (outcome r, emit (EvAclose h r) w)) ;;;
      modify (set_client None)
  | None => ret tt
  end ;;;
  modify (set_initialized false).

End Service.

(** ** Retry policy *)

(** The two choices a retry policy makes: how many more attempts follow
    the first, and which failures are worth another attempt. *)
Record RetryPolicy := {
  retries : nat;
  retryable : exn -> bool
}.

Section Retry.

Variable policy : RetryPolicy.

(** Modelled from the spec: [utils.retry.retry], imported at line 7, is
    not among the sources.  Section 4.1: it invokes the operation and, on
    failure, re-invokes it up to a fixed bounded count, then propagates
    the last failure; the policy is pluggable, and section 7 has
    configuration errors fatal, so which failures are retried is left to
    the policy.  The delay between attempts only suspends the caller and
    does not appear in the sequential model. *)
Fixpoint retry_loop {A} (n : nat) (operation : M A) : M A :=
  try_except operation
    (fun e => match n with
              | O => raise e
              | S n' => if retryable policy e
                        then retry_loop n' operation
                        else raise e
              end).

Definition retry {A} (operation : M A) : M A :=
  retry_loop (retries policy) operation.

End Retry.

Section Operations.

Variable lib : RedisLib.
Variable policy : RetryPolicy.

(** The test of line 89. *)
Definition needs_init (w : world) : bool :=
  match client w with None => true | Some _ => false end
  || negb (_initialized w).

(** [get_client()], lines 86-91.  For a lone caller [_init_lock] is
    always free, so [initialize_async] runs through. *)
Definition get_client : M (option handle) :=
  stale <- read needs_init ;;
  (if stale then (retry policy (initialize_async lib) ;;; ret tt) else ret tt) ;;;
  read client.

(** A method call on what [get_client] returned. *)
Definition invoke (redis_client : option handle) (c : command) : M pyval :=
  fun w => match redis_client with
           | None => (Raise (AttributeError (none_attr_msg (method_name c))), w)
           | Some h =>
               let r := reply lib (trace w) h c in
               (r, emit (EvCommand h c r) w)
           end.

(** Basic operations, lines 95-123. *)
Definition set (key value : string) (ex : option Z) (nx : bool) : M pyval :=
  redis_client <- get_client ;;
  invoke redis_client (CmdSet key value ex nx).

Definition get (key : string) (default : pyval) : M pyval :=
  redis_client <- get_client ;;
  result <- invoke redis_client (CmdGet key) ;;
  ret (if negb (is_none result) then result else default).

Definition delete (key : string) : M pyval :=
  redis_client <- get_client ;;
  invoke redis_client (CmdDelete key).

Definition publish (channel message : string) : M pyval :=
  redis_client <- get_client ;;
  invoke redis_client (CmdPublish channel message).

Definition create_pubsub : M pyval :=
  redis_client <- get_client ;;
  invoke redis_client CmdPubsub.

(** List operations, lines 127-136. *)
Definition rpush (key : string) (values : list string) : M pyval :=
  redis_client <- get_client ;;
  invoke redis_client (CmdRpush key values).

Definition lrange (key : string) (start stop : Z) : M pyval :=
  redis_client <- get_client ;;
  invoke redis_client (CmdLrange key start stop).

(** Key management, lines 142-145. *)
Definition keys (pattern : string) : M pyval :=
  redis_client <- get_client ;;
  invoke redis_client (CmdKeys pattern).

(** The defaults of the signatures: [ex=None], [nx=False], [default=None]. *)
Definition set_default_args (key value : string) : M pyval :=
  set key value None false.
Definition get_default_args (key : string) : M pyval :=
  get key PyNone.

(** The public operations as data, to speak about all of them at once. *)
Inductive operation :=
| OpSet (key value : string) (ex : option Z) (nx : bool)
| OpGet (key : string) (default : pyval)
| OpDelete (key : string)
| OpPublish (channel message : string)
| OpCreatePubsub
| OpRpush (key : string) (values : list string)
| OpLrange (key : string) (start stop : Z)
| OpKeys (pattern : string).

Definition run (op : operation) : M pyval :=
  match op with
  | OpSet k v ex nx => set k v ex nx
  | OpGet k d => get k d
  | OpDelete k => delete k
  | OpPublish c m => publish c m
  | OpCreatePubsub => create_pubsub
  | OpRpush k vs => rpush k vs
  | OpLrange k a b => lrange k a b
  | OpKeys p => keys p
  end.

Definition command_of (op : operation) : command :=
  match op with
  | OpSet k v ex nx => CmdSet k v ex nx
  | OpGet k _ => CmdGet k
  | OpDelete k => CmdDelete k
  | OpPublish c m => CmdPublish c m
  | OpCreatePubsub => CmdPubsub
  | OpRpush k vs => CmdRpush k vs
  | OpLrange k a b => CmdLrange k a b
  | OpKeys p => CmdKeys p
  end.

End Operations.

(** ** Concurrent callers of [get_client]

    asyncio runs one coroutine at a time and switches only where a
    coroutine suspends.  A call of [get_client] suspends in three places:
    waiting for [_init_lock], waiting for the answer to the ping, and
    between two attempts of [retry].  Between these points the code of
    lines 56-71 and 89-91 runs without interruption. *)

Inductive pc :=
| Idle
| Queued (budget : nat)
| Pinging (budget : nat) (target : handle)
| Sleeping (budget : nat)
| Returned (c : option handle)
| Raised (e : exn).

(** [locked] and [waiters] are the two fields of [asyncio.Lock]: a task
    that finds the lock taken, or others already waiting, joins the
    queue; a release wakes the head of the queue. *)
Record system := System {
  globals : world;
  locked : bool;
  waiters : list nat;
  tasks : list pc
}.

Inductive action :=
| Call (i : nat)
| Wake (i : nat)
| Pong (i : nat) (r : option exn)
| Resume (i : nat).

Definition boot (url : option string) (n : nat) : system :=
  System (start url) false [] (replicate n Idle).

Section Concurrent.

Variable lib : RedisLib.
Variable policy : RetryPolicy.

(** What [retry] does with a failed attempt when [budget] more are allowed. *)
Definition after_failure (budget : nat) (e : exn) : pc :=
  match budget with
  | O => Raised e
  | S l => if retryable policy e then Sleeping l else Raised e
  end.

(** Leaving [async with _init_lock], by return or by exception. *)
Definition leave (i budget : nat) (r : result (option handle) * world)
    (s : system) : system :=
  let (res, g) := r in
  System g false (waiters s)
         (<[i := match res with
                 | Ok _ => Returned (client g)
                 | Raise e => after_failure budget e
                 end]> (tasks s)).

(** Lines 57-62 with the lock just taken, up to the suspension on the
    ping (or to the exit when something raises before). *)
Definition enter (i budget : nat) (s : system) : system :=
  match initialize_async_enter lib (globals s) with
  | (Raise e, g) => leave i budget (Raise e, g) s
  | (Ok _, g) =>
      match client g with
      | Some h => System g true (waiters s) (<[i := Pinging budget h]> (tasks s))
      | None =>
          let (r, g1) := ping lib g in
          leave i budget (initialize_async_resume r g1) s
      end
  end.

(** One attempt of [retry]: call [initialize_async], take the lock or
    queue for it. *)
Definition attempt (i budget : nat) (s : system) : system :=
  if negb (locked s) && bool_decide (waiters s = [])
  then enter i budget s
  else System (globals s) (locked s) (waiters s ++ [i])
              (<[i := Queued budget]> (tasks s)).

Definition step (s : system) (a : action) : option system :=
  match a with
  | Call i =>
      match tasks s !! i with
      | Some Idle =>
          if needs_init (globals s)
          then Some (attempt i (retries policy) s)
          else Some (System (globals s) (locked s) (waiters s)
                            (<[i := Returned (client (globals s))]> (tasks s)))
      | _ => None
      end
  | Wake i =>
      match tasks s !! i, waiters s, locked s with
      | Some (Queued budget), j :: rest, false =>
          if bool_decide (i = j)
          then Some (enter i budget
                       (System (globals s) false rest (tasks s)))
          else None
      | _, _, _ => None
      end
  | Pong i r =>
      match tasks s !! i with
      | Some (Pinging budget h) =>
          Some (leave i budget
                  (initialize_async_resume (outcome r)
                     (emit (EvPing h r) (globals s))) s)
      | _ => None
      end
  | Resume i =>
      match tasks s !! i with
      | Some (Sleeping budget) => Some (attempt i budget s)
      | _ => None
      end
  end.

Fixpoint exec (s : system) (schedule : list action) : option system :=
  match schedule with
  | [] => Some s
  | a :: rest =>
      match step s a with
      | Some s' => exec s' rest
      | None => None
      end
  end.

End Concurrent.

(** Observations on a trace and on the task table. *)
Definition is_from_url (ev : event) : bool :=
  match ev with EvFromUrl _ _ => true | _ => false end.
Definition is_ping (ev : event) : bool :=
  match ev with EvPing _ _ => true | _ => false end.
Definition constructions (t : list event) : nat :=
  length (List.filter is_from_url t).
Definition probes (t : list event) : nat :=
  length (List.filter is_ping t).

Definition in_critical_section (s : system) (i : nat) : Prop :=
  exists budget h, tasks s !! i = Some (Pinging budget h).

Definition finished (p : pc) : bool :=
  match p with Returned _ | Raised _ => true | _ => false end.

(** How many calls have come to an end. *)
Definition done_count (l : list pc) : nat := length (List.filter finished l).

(** The lock at work: nobody is past line 56 while the lock is free, and
    no two tasks are. *)
Definition lock_discipline (s : system) : Prop :=
  (locked s = false -> forall i, ~ in_critical_section s i)
  /\ (forall i j, in_critical_section s i -> in_critical_section s j -> i = j).

Definition quiet (p : pc) : Prop := forall budget h, p <> Pinging budget h.

(** What a task can be doing while every probe succeeds. *)
Definition ok_pc (p : pc) : Prop :=
  match p with
  | Idle | Queued _ => True
  | Pinging _ h => h = 0
  | Returned c => c = Some 0
  | Sleeping _ | Raised _ => False
  end.

(** The one handle every caller shares once the first call has begun. *)
Definition shared (u : string) (s : system) : Prop :=
  environ_REDIS_URL (globals s) = Some u
  /\ client (globals s) = Some 0
  /\ next_handle (globals s) = 1
  /\ constructions (trace (globals s)) = 1
  /\ (_initialized (globals s) = true \/ locked s = true)
  /\ forall i p, tasks s !! i = Some p -> ok_pc p.

Definition settled (u : string) (n : nat) (s : system) : Prop :=
  s = boot (Some u) n \/ shared u s.

(** The reading of "exactly one initialize-plus-probe sequence, one
    outcome for all callers" on a final state. *)
Definition all_finished (s : system) : Prop :=
  forall i p, tasks s !! i = Some p -> finished p = true.
Definition single_sequence (s : system) : Prop :=
  constructions (trace (globals s)) = 1 /\ probes (trace (globals s)) = 1.
Definition same_outcome (s : system) : Prop :=
  forall i j p q, tasks s !! i = Some p -> tasks s !! j = Some q -> p = q.

Definition all_pongs_succeed (schedule : list action) : Prop :=
  forall i r, In (Pong i r) schedule -> r = None.

(** The three conditions of the connection URL that [initialize] tells
    apart. *)
Definition url_absent (w : world) : Prop :=
  environ_REDIS_URL w = None \/ environ_REDIS_URL w = Some "".
Definition url_malformed (lib : RedisLib) (w : world) : Prop :=
  exists u, environ_REDIS_URL w = Some u /\ u <> ""
            /\ url_wellformed lib u = false.
Definition url_configured (lib : RedisLib) (w : world) (u : string) : Prop :=
  environ_REDIS_URL w = Some u /\ u <> "" /\ url_wellformed lib u = true.

(** Handles are numbered in the order of their construction, so the
    handle in use is one of those built so far. *)
Definition consistent (w : world) : Prop :=
  forall h, client w = Some h -> h < next_handle w.

(** The exception is the one raised by the last probe: by the server,
    or by the attribute lookup on [None]. *)
Definition probe_error (e : exn) (w' : world) : Prop :=
  e = AttributeError (none_attr_msg "ping")
  \/ exists h t, trace w' = (t ++ [EvPing h (Some e)])%list.

(** The answer to the probe of a handle built at [w] from [u]. *)
Definition first_probe (lib : RedisLib) (u : string) (w : world) : option exn :=
  ping_reply lib (trace w ++ [EvFromUrl u (next_handle w)]) (next_handle w).

End redis.

Module billing.

(** ** Responses *)

#[local] Unset Elimination Schemes.
(** The dictionaries returned by the endpoints, in insertion order. *)
Inductive json :=
| JNull
| JBool (b : bool)
| JInt (z : Z)
| JStr (s : string)
| JList (l : list json)
| JDict (d : list (string * json)).
#[local] Set Elimination Schemes.

Fixpoint lookup_key (k : string) (d : list (string * json)) : option json :=
  match d with
  | [] => None
  | (k', v) :: rest => if String.eqb k k' then Some v else lookup_key k rest
  end.

Definition field (k : string) (j : json) : option json :=
  match j with JDict d => lookup_key k d | _ => None end.

(** ** [datetime] *)

Record datetime := Datetime {
  year : Z; month : Z; day : Z;
  hour : Z; minute : Z; second : Z; microsecond : Z
}.

Definition is_leap (y : Z) : bool :=
  (y mod 4 =? 0)%Z && (negb (y mod 100 =? 0)%Z || (y mod 400 =? 0)%Z).

Definition days_in_month (y m : Z) : Z :=
  if (m =? 2)%Z then (if is_leap y then 29 else 28)%Z
  else if (m =? 4)%Z || (m =? 6)%Z || (m =? 9)%Z || (m =? 11)%Z then 30%Z
  else 31%Z.

(** [dt.replace(year=y)]: the new date is checked like any other. *)
Definition replace_year (dt : datetime) (y : Z) : result datetime :=
  if (y <? 1)%Z || (9999 <? y)%Z
  then Raise (ValueError "year is out of range")
  else if (day dt <? 1)%Z || (days_in_month y (month dt) <? day dt)%Z
  then Raise (ValueError "day is out of range for month")
  else Ok (Datetime y (month dt) (day dt)
                    (hour dt) (minute dt) (second dt) (microsecond dt)).

(** The two readings of the clock at line 233:
    [datetime.now(timezone.utc)] and [datetime.now()]. *)
Record clock := Clock {
  now_utc : datetime;
  now_local : datetime
}.

(** ** [SubscriptionStatus], lines 49-62 *)

Record SubscriptionStatus := {
  status : string;
  plan_name : option string;
  price_id : option string;
  current_period_end : option datetime;
  cancel_at_period_end : bool;
  trial_end : option datetime;
  minutes_limit : option Z;
  cost_limit : option Q;
  current_usage : option Q;
  has_schedule : bool;
  scheduled_plan_name : option string;
  scheduled_price_id : option string;
  scheduled_change_date : option datetime
}.

Definition with_period_end (e : option datetime) (r : SubscriptionStatus)
    : SubscriptionStatus :=
  {| status := status r;
     plan_name := plan_name r;
     price_id := price_id r;
     current_period_end := e;
     cancel_at_period_end := cancel_at_period_end r;
     trial_end := trial_end r;
     minutes_limit := minutes_limit r;
     cost_limit := cost_limit r;
     current_usage := current_usage r;
     has_schedule := has_schedule r;
     scheduled_plan_name := scheduled_plan_name r;
     scheduled_price_id := scheduled_price_id r;
     scheduled_change_date := scheduled_change_date r |}.

(** ** Endpoints *)

(** [get_subscription], lines 222-240. *)
Definition get_subscription (clk : clock) (current_user_id : string)
    : result SubscriptionStatus :=
  match replace_year (now_utc clk) (year (now_local clk) + 1) with
  | Raise e => Raise e
  | Ok period_end =>
      Ok {| status := "active";
            plan_name := Some "Maximum Tier (Billing Disabled)";
            price_id := Some "maximum_tier";
            current_period_end := Some period_end;
            cancel_at_period_end := false;
            trial_end := None;
            minutes_limit := Some 999999%Z;
            cost_limit := Some (999999 # 1);
            current_usage := Some (0 # 1);
            has_schedule := false;
            scheduled_plan_name := None;
            scheduled_price_id := None;
            scheduled_change_date := None |}
  end.

(** [check_status], lines 242-257. *)
Definition check_status (current_user_id : string) : json :=
  JDict [("can_run", JBool true);
         ("message", JStr "Maximum privileges - billing disabled");
         ("subscription",
          JDict [("price_id", JStr "maximum_tier");
                 ("plan_name", JStr "Maximum Tier (Billing Disabled)");
                 ("minutes_limit", JStr "unlimited")])].

Definition str (e : exn) : string :=
  match e with
  | ValueError m => m
  | AttributeError m => m
  | RedisError m => m
  | HTTPException _ d => d
  end.

(** [get_usage_logs_endpoint], lines 388-414: the checks of lines
    399-408, then the two [except] clauses around them. *)
Definition usage_logs_body (page items_per_page : Z) : result json :=
  if (page <? 0)%Z
  then Raise (HTTPException 400 "Page must be non-negative")
  else if (items_per_page <? 1)%Z || (items_per_page >? 1000)%Z
  then Raise (HTTPException 400 "Items per page must be between 1 and 1000")
  else Ok (JDict [("logs", JList []);
                  ("has_more", JBool false);
                  ("message", JStr "Billing disabled - no usage tracking")]).

Definition get_usage_logs_endpoint (page items_per_page : Z)
    (current_user_id : string) : result json :=
  match usage_logs_body page items_per_page with
  | Ok r => Ok r
  | Raise (HTTPException c d) => Raise (HTTPException c d)
  | Raise e =>
      Raise (HTTPException 500 ("Error getting usage logs: " ++ str e))
  end.

End billing.

(** ** Concrete libraries, policies and worlds used in the examples *)

Module scenario.

Definition scheme_ok (url : string) : bool :=
  String.prefix "redis://" url || String.prefix "rediss://" url
  || String.prefix "unix://" url.

Definition empty_reply (c : redis.command) : result pyval :=
  match c with
  | redis.CmdSet _ _ _ _ => Ok (PyBool true)
  | redis.CmdGet _ => Ok PyNone
  | redis.CmdDelete _ => Ok (PyInt 0)
  | redis.CmdPublish _ _ => Ok (PyInt 0)
  | redis.CmdPubsub => Ok PyNone
  | redis.CmdRpush _ vs => Ok (PyInt (Z.of_nat (length vs)))
  | redis.CmdLrange _ _ _ => Ok (PyStrList [])
  | redis.CmdKeys _ => Ok (PyStrList [])
  end.

(** A reachable server that holds no key. *)
Definition healthy : redis.RedisLib :=
  {| redis.url_wellformed := scheme_ok;
     redis.ping_reply := fun _ _ => None;
     redis.aclose_reply := fun _ _ => None;
     redis.reply := fun _ _ c => empty_reply c |}.

Definition refused : exn := RedisError "Connection refused".

(** A server that cannot be reached. *)
Definition unreachable : redis.RedisLib :=
  {| redis.url_wellformed := scheme_ok;
     redis.ping_reply := fun _ _ => Some refused;
     redis.aclose_reply := fun _ _ => None;
     redis.reply := fun _ _ _ => Raise refused |}.

(** A server that is down for the first probe only. *)
Definition flaky : redis.RedisLib :=
  {| redis.url_wellformed := scheme_ok;
     redis.ping_reply := fun t _ =>
       if Nat.eqb (redis.probes t) 0 then Some refused else None;
     redis.aclose_reply := fun _ _ => None;
     redis.reply := fun _ _ c => empty_reply c |}.

(** A connection whose shutdown times out. *)
Definition stuck_close : redis.RedisLib :=
  {| redis.url_wellformed := scheme_ok;
     redis.ping_reply := fun _ _ => None;
     redis.aclose_reply := fun _ _ =>
       Some (RedisError "Timed out closing connection");
     redis.reply := fun _ _ c => empty_reply c |}.

Definition three_attempts : redis.RetryPolicy :=
  {| redis.retries := 2; redis.retryable := fun _ => true |}.

Definition single_attempt : redis.RetryPolicy :=
  {| redis.retries := 0; redis.retryable := fun _ => true |}.

Definition url : string := "redis://cache:6379".

Definition fresh : redis.world := redis.start (Some url).

(** The module after one successful [get_client]. *)
Definition ready : redis.world :=
  redis.World (Some 0) true (Some url) 1
              [redis.EvFromUrl url 0; redis.EvPing 0 None].

Definition noon : billing.datetime := billing.Datetime 2026 11 3 12 0 0 0.
Definition leap_day : billing.datetime := billing.Datetime 2028 2 29 12 0 0 0.

End scenario.

(** ** Further vocabulary for the Redis service module *)

Module redis_ext.

(** The state in which line 89 lets a caller through. *)
Definition ready (w : redis.world) (h : handle) : Prop :=
  redis.client w = Some h /\ redis._initialized w = true.

Definition is_aclose (ev : redis.event) : bool :=
  match ev with redis.EvAclose _ _ => true | _ => false end.
Definition closes (t : list redis.event) : nat :=
  length (List.filter is_aclose t).

(** The command of [op] went to handle [h]. *)
Definition sent_to (h : handle) (op : redis.operation) (ev : redis.event)
    : Prop :=
  exists r, ev = redis.EvCommand h (redis.command_of op) r.

Section Programs.

Variable lib : redis.RedisLib.
Variable policy : redis.RetryPolicy.

(** A caller that awaits the operations one after the other and keeps
    going when one of them raises. *)
Fixpoint run_all (ops : list redis.operation) (w : redis.world)
    : list (result pyval) * redis.world :=
  match ops with
  | [] => ([], w)
  | op :: rest =>
      let (r, w1) := redis.run lib policy op w in
      let (rs, w2) := run_all rest w1 in
      (r :: rs, w2)
  end.

End Programs.

(** *** Progress of concurrent callers *)

Definition queued (p : redis.pc) : bool :=
  match p with redis.Queued _ => true | _ => false end.

(** The queue of [_init_lock] holds each waiting task once, and nobody
    else. *)
Definition queue_discipline (s : redis.system) : Prop :=
  NoDup (redis.waiters s)
  /\ forall j, j ∈ redis.waiters s
               <-> exists b, redis.tasks s !! j = Some (redis.Queued b).

(** A taken lock has a holder. *)
Definition lock_held_by_someone (s : redis.system) : Prop :=
  redis.locked s = true -> exists i, redis.in_critical_section s i.

Definition orderly (s : redis.system) : Prop :=
  queue_discipline s /\ lock_held_by_someone s.

Definition enabled (lib : redis.RedisLib) (policy : redis.RetryPolicy)
    (s : redis.system) : Prop :=
  exists a s', redis.step lib policy s a = Some s'.

(** The steps a call may still take, at most: three per attempt (queue
    for the lock, take it, hear from the ping). *)
Definition weight (R : nat) (p : redis.pc) : nat :=
  match p with
  | redis.Idle => 3 * R + 3
  | redis.Sleeping b => 3 * b + 3
  | redis.Queued b => 3 * b + 2
  | redis.Pinging b _ => 3 * b + 1
  | redis.Returned _ | redis.Raised _ => 0
  end.

Definition total_weight (R : nat) (l : list redis.pc) : nat :=
  list_sum (map (weight R) l).

End redis_ext.

(** ** Further vocabulary for the billing module *)

Module billing_ext.

(** A date that [datetime] can hold. *)
Definition valid_date (dt : billing.datetime) : Prop :=
  (1 <= billing.year dt <= 9999)%Z
  /\ (1 <= billing.month dt <= 12)%Z
  /\ (1 <= billing.day dt
      <= billing.days_in_month (billing.year dt) (billing.month dt))%Z.

End billing_ext.

(** ** Model pricing and the model catalogue of [billing.py] *)

Module pricing.

(** *** Strings *)

Definition slash : ascii := "/"%char.

(** ['/' in s] *)
Fixpoint contains_slash (s : string) : bool :=
  match s with
  | EmptyString => false
  | String c rest => if Ascii.eqb c slash then true else contains_slash rest
  end.

(** [s.split('/', 1)[1]], for a string with a slash. *)
Fixpoint after_first_slash (s : string) : string :=
  match s with
  | EmptyString => EmptyString
  | String c rest => if Ascii.eqb c slash then rest else after_first_slash rest
  end.

(** [s.split('/')[-1]]; [acc] is the segment read so far. *)
Fixpoint last_segment_from (acc s : string) : string :=
  match s with
  | EmptyString => acc
  | String c rest =>
      if Ascii.eqb c slash then last_segment_from EmptyString rest
      else last_segment_from (acc ++ String c EmptyString) rest
  end.
Definition last_segment (s : string) : string :=
  last_segment_from EmptyString s.

(** [s.replace(pat, '')] for a non-empty [pat]: occurrences are found
    from the left and do not overlap; [skip] characters of the occurrence
    just found remain to be dropped. *)
Fixpoint remove_all_from (pat : string) (skip : nat) (s : string) : string :=
  match s with
  | EmptyString => EmptyString
  | String c rest =>
      match skip with
      | S k => remove_all_from pat k rest
      | O =>
          if String.prefix pat s
          then remove_all_from pat (String.length pat - 1) rest
          else String c (remove_all_from pat 0 rest)
      end
  end.
Definition remove_all (pat s : string) : string := remove_all_from pat 0 s.

(** *** Dictionaries *)

(** The items of a dictionary in insertion order; [d.get(k)]. *)
Fixpoint dict_get {V : Type} (k : string) (d : list (string * V)) : option V :=
  match d with
  | [] => None
  | (k', v) :: rest => if String.eqb k k' then Some v else dict_get k rest
  end.

(** [a or b] for values that are [None] or a non-empty tuple. *)
Definition or_else {A : Type} (a b : option A) : option A :=
  match a with Some x => Some x | None => b end.

(** *** Floats

    The arithmetic of Python floats is left abstract: the functions
    below only combine numbers, they never compare them. [per_million n]
    is [n / 1_000_000], which raises [OverflowError] for an integer too
    large for a float. *)
Record FloatOps := {
  F : Type;
  zero : F;
  one_and_a_half : F;
  fadd : F -> F -> F;
  fmul : F -> F -> F;
  per_million : Z -> option F
}.

Section Pricing.

Variable fl : FloatOps.

(** Line 19. *)
Definition TOKEN_PRICE_MULTIPLIER : F fl := one_and_a_half fl.

(** The tables of [utils.constants], which is not among the sources,
    and [litellm.cost_calculator.cost_per_token], which answers with a
    pair of costs, either of which may be [None], or raises.  Each entry
    of the price table holds its two costs. *)
Variable HARDCODED_MODEL_PRICES : list (string * (F fl * F fl)).
Variable MODEL_NAME_ALIASES : list (string * string).
Variable cost_per_token :
  string -> Z -> Z -> result (option (F fl) * option (F fl)).

(** The order in which Python iterates over a set built from the given
    elements: some order, each element once. *)
Variable set_to_list : list string -> list string.

(** [get_model_pricing], lines 24-37. *)
Definition get_model_pricing (model : string) : option (F fl * F fl) :=
  dict_get model HARDCODED_MODEL_PRICES.

(** [calculate_token_cost], lines 119-139: the names under which the
    model is looked up. *)
Definition models_to_try (model resolved_model : string) : list string :=
  [model]
  ++ (if negb (String.eqb resolved_model model) then [resolved_model] else [])
  ++ (if contains_slash model then [after_first_slash model] else [])
  ++ (if contains_slash resolved_model
         && negb (String.eqb resolved_model model)
      then [after_first_slash resolved_model] else [])
  ++ (if String.prefix "openrouter/google/" model
      then [remove_all "openrouter/" model] else [])
  ++ (if String.prefix "openrouter/google/" resolved_model
      then [remove_all "openrouter/" resolved_model] else []).

(** Lines 142-151: the first name for which both costs are known; a
    name for which the lookup raises is skipped. *)
Fixpoint first_cost (names : list string) (prompt_tokens completion_tokens : Z)
    : option (F fl * F fl) :=
  match names with
  | [] => None
  | model_name :: rest =>
      match cost_per_token model_name prompt_tokens completion_tokens with
      | Ok (Some prompt_token_cost, Some completion_token_cost) =>
          Some (prompt_token_cost, completion_token_cost)
      | _ => first_cost rest prompt_tokens completion_tokens
      end
  end.

(** [calculate_token_cost], lines 101-165.  Whatever is raised inside is
    caught at line 163 and becomes [0.0]. *)
Definition calculate_token_cost (prompt_tokens completion_tokens : option Z)
    (model : string) : F fl :=
  let prompt_tokens := default 0%Z prompt_tokens in
  let completion_tokens := default 0%Z completion_tokens in
  let resolved_model := default model (dict_get model MODEL_NAME_ALIASES) in
  match or_else (get_model_pricing model) (get_model_pricing resolved_model)
  with
  | Some (input_cost_per_million, output_cost_per_million) =>
      match per_million fl prompt_tokens, per_million fl completion_tokens with
      | Some p, Some c =>
          fmul fl (fadd fl (fmul fl p input_cost_per_million)
                           (fmul fl c output_cost_per_million))
                  TOKEN_PRICE_MULTIPLIER
      | _, _ => zero fl
      end
  | None =>
      match first_cost (models_to_try model resolved_model)
                       prompt_tokens completion_tokens with
      | Some (prompt_token_cost, completion_token_cost) =>
          fmul fl (fadd fl prompt_token_cost completion_token_cost)
                  TOKEN_PRICE_MULTIPLIER
      | None => zero fl
      end
  end.

(** [get_allowed_models_for_user], lines 167-176. *)
Definition get_allowed_models_for_user (user_id : string) : list string :=
  set_to_list (snd <$> MODEL_NAME_ALIASES).

(** [get_available_models], lines 265-386. *)

Definition provider_prefixed (short_name : string) : bool :=
  String.prefix "openai/" short_name || String.prefix "anthropic/" short_name
  || String.prefix "openrouter/" short_name || String.prefix "xai/" short_name.

(** The test of line 282. *)
Definition usable_alias (short_name full_name : string) : bool :=
  negb (String.eqb short_name full_name) && negb (provider_prefixed short_name).

(** Lines 277-284: the first usable short name of each full name. *)
Fixpoint collect_aliases (items model_aliases : list (string * string))
    : list (string * string) :=
  match items with
  | [] => model_aliases
  | (short_name, full_name) :: rest =>
      collect_aliases rest
        (if usable_alias short_name full_name
         then match dict_get full_name model_aliases with
              | None => model_aliases ++ [(full_name, short_name)]
              | Some _ => model_aliases
              end
         else model_aliases)
  end.

(** Lines 320-323: the first key whose value is the model. *)
Fixpoint first_key_of (model : string) (items : list (string * string))
    : list string :=
  match items with
  | [] => []
  | (alias_key, alias_value) :: rest =>
      if String.eqb alias_value model then [alias_key]
      else first_key_of model rest
  end.

(** Lines 306-332. *)
Definition names_to_price (model : string) : list string :=
  [model]
  ++ match dict_get model MODEL_NAME_ALIASES with
     | Some resolved_model =>
         resolved_model
         :: (if contains_slash resolved_model
             then [after_first_slash resolved_model] else [])
     | None => []
     end
  ++ first_key_of model MODEL_NAME_ALIASES
  ++ (if contains_slash model then [after_first_slash model] else [])
  ++ (if String.prefix "openrouter/google/" model
      then [remove_all "openrouter/" model] else []).

Record model_entry := {
  id : string;
  display_name : string;
  short_name : option string;
  requires_subscription : bool;
  is_available : bool;
  input_cost_per_million_tokens : option (F fl);
  output_cost_per_million_tokens : option (F fl);
  max_tokens : option Z
}.

(** Lines 292-367. *)
Definition pricing_info (model : string) : option (F fl) * option (F fl) :=
  match get_model_pricing model with
  | Some (input_cost_per_million, output_cost_per_million) =>
      (Some (fmul fl input_cost_per_million TOKEN_PRICE_MULTIPLIER),
       Some (fmul fl output_cost_per_million TOKEN_PRICE_MULTIPLIER))
  | None =>
      match first_cost (names_to_price model) 1000000 1000000 with
      | Some (input_cost_per_token, output_cost_per_token) =>
          (Some (fmul fl input_cost_per_token TOKEN_PRICE_MULTIPLIER),
           Some (fmul fl output_cost_per_token TOKEN_PRICE_MULTIPLIER))
      | None => (None, None)
      end
  end.

(** Lines 288-376, for one model of the set. *)
Definition model_info_of (model_aliases : list (string * string))
    (model : string) : model_entry :=
  {| id := model;
     display_name :=
       default (if contains_slash model then last_segment model else model)
               (dict_get model model_aliases);
     short_name := dict_get model model_aliases;
     requires_subscription := false;
     is_available := true;
     input_cost_per_million_tokens := fst (pricing_info model);
     output_cost_per_million_tokens := snd (pricing_info model);
     max_tokens := None |}.

Record models_response := {
  models : list model_entry;
  subscription_tier : string;
  total_models : nat
}.

Definition get_available_models (current_user_id : string) : models_response :=
  let all_models := set_to_list (snd <$> MODEL_NAME_ALIASES) in
  let model_aliases := collect_aliases MODEL_NAME_ALIASES [] in
  let model_info := model_info_of model_aliases <$> all_models in
  {| models := model_info;
     subscription_tier := "Maximum Tier (Billing Disabled)";
     total_models := length model_info |}.

End Pricing.

(** litellm has both costs of this name. *)
Definition priced (fl : FloatOps)
    (cost_per_token : string -> Z -> Z -> result (option (F fl) * option (F fl)))
    (name : string) (prompt_tokens completion_tokens : Z) : Prop :=
  exists p c,
    cost_per_token name prompt_tokens completion_tokens = Ok (Some p, Some c).

(** The first alias of the table that may serve as a short name of
    [model]. *)
Definition first_usable_alias (model : string)
    (items : list (string * string)) : option string :=
  fst <$> List.find
            (fun kv => String.eqb (snd kv) model
                       && usable_alias (fst kv) (snd kv)) items.

(** A set is iterated in some order, each element once. *)
Definition iterates_sets (set_to_list : list string -> list string) : Prop :=
  forall l, set_to_list l ≡ₚ remove_dups l.

(** *** A small catalogue for the examples, with rationals for floats *)

Definition rationals : FloatOps :=
  {| F := Q;
     zero := 0 # 1;
     one_and_a_half := 3 # 2;
     fadd := Qplus;
     fmul := Qmult;
     per_million := fun n => Some (Qmake n 1000000) |}.

Definition sample_prices : list (string * (Q * Q)) :=
  [("openrouter/moonshotai/kimi-k2", (1 # 1, 3 # 1))].

Definition sample_aliases : list (string * string) :=
  [("kimi", "openrouter/moonshotai/kimi-k2");
   ("openrouter/moonshotai/kimi-k2", "openrouter/moonshotai/kimi-k2");
   ("gemini", "openrouter/google/gemini-2.5-pro");
   ("gemini-pro", "openrouter/google/gemini-2.5-pro");
   ("sonnet", "anthropic/claude-sonnet-4")].

(** litellm knows one model, under the name it has at the provider. *)
Definition sample_cost_per_token (name : string) (p c : Z)
    : result (option Q * option Q) :=
  if String.eqb name "google/gemini-2.5-pro"
  then Ok (Some (Qmake p 800000), Some (Qmake c 100000))
  else if String.eqb name "gemini"
  then Ok (Some (Qmake p 800000), None)
  else Raise (ValueError "This model isn't mapped yet").

End pricing.

(** * Properties of the Redis service module *)

Section RedisSequential.

Variable lib : redis.RedisLib.
Variable policy : redis.RetryPolicy.

Example get_client_from_scratch :
  redis.get_client scenario.healthy scenario.three_attempts scenario.fresh
  = (Ok (Some 0), scenario.ready).
Proof. reflexivity. Qed.

Example get_client_unreachable :
  redis.get_client scenario.unreachable scenario.three_attempts scenario.fresh
  = (Raise scenario.refused,
     redis.World None false (Some scenario.url) 3
       [redis.EvFromUrl scenario.url 0; redis.EvPing 0 (Some scenario.refused);
        redis.EvFromUrl scenario.url 1; redis.EvPing 1 (Some scenario.refused);
        redis.EvFromUrl scenario.url 2; redis.EvPing 2 (Some scenario.refused)]).
Proof. reflexivity. Qed.

Example get_client_flaky :
  redis.get_client scenario.flaky scenario.three_attempts scenario.fresh
  = (Ok (Some 1),
     redis.World (Some 1) true (Some scenario.url) 2
       [redis.EvFromUrl scenario.url 0; redis.EvPing 0 (Some scenario.refused);
        redis.EvFromUrl scenario.url 1; redis.EvPing 1 None]).
Proof. reflexivity. Qed.

Example get_absent_key :
  fst (redis.get scenario.healthy scenario.three_attempts "k" (PyStr "d")
         scenario.fresh) = Ok (PyStr "d").
Proof. reflexivity. Qed.

(** *** [initialize] *)

Ltac unfold_m :=
  unfold redis.bind, redis.ret, redis.raise, redis.read, redis.modify,
         redis.try_except in *.

Lemma initialize_absent w :
  redis.url_absent w ->
  redis.initialize lib w = (Raise (ValueError redis.no_url_msg), w).
Proof.
  unfold redis.initialize. unfold_m.
  intros [H | H]; rewrite H; reflexivity.
Qed.

Lemma initialize_malformed w :
  redis.url_malformed lib w ->
  redis.initialize lib w = (Raise (ValueError redis.bad_scheme_msg), w).
Proof.
  intros (u & Hu & Hne & Hbad).
  unfold redis.initialize. unfold_m. rewrite Hu.
  destruct u as [|a u]; [congruence|].
  unfold redis.from_url. rewrite Hbad. reflexivity.
Qed.

Lemma initialize_configured w u :
  redis.url_configured lib w u ->
  redis.initialize lib w = (Ok (redis.next_handle w), redis.fresh_client u w).
Proof.
  intros (Hu & Hne & Hok).
  unfold redis.initialize. unfold_m. rewrite Hu.
  destruct u as [|a u]; [congruence|].
  unfold redis.from_url. rewrite Hok. reflexivity.
Qed.

Lemma url_cases w :
  redis.url_absent w \/ redis.url_malformed lib w
  \/ exists u, redis.url_configured lib w u.
Proof.
  unfold redis.url_absent, redis.url_malformed, redis.url_configured.
  destruct (redis.environ_REDIS_URL w) as [u|] eqn:E; [|by left; left].
  destruct u as [|a u]; [by left; right|].
  destruct (redis.url_wellformed lib (String a u)) eqn:Hw.
  - right; right. exists (String a u). done.
  - right; left. exists (String a u). done.
Qed.

(** C5: [initialize] raises the configuration error ([ValueError]) when
    the connection URL is absent (unset or empty) or malformed, leaving
    the module untouched; for any other URL it builds a new handle,
    stores it in [client] and returns it, and the only thing it does to
    the outside is the construction itself: no ping and no command is
    sent. *)
Theorem initialize_config_error_or_handle (w : redis.world) :
  (redis.url_absent w \/ redis.url_malformed lib w ->
     exists msg, redis.initialize lib w = (Raise (ValueError msg), w))
  /\ (forall u, redis.url_configured lib w u ->
        exists w', redis.initialize lib w = (Ok (redis.next_handle w), w')
          /\ redis.client w' = Some (redis.next_handle w)
          /\ redis._initialized w' = redis._initialized w
          /\ redis.trace w'
             = (redis.trace w ++ [redis.EvFromUrl u (redis.next_handle w)])%list
          /\ redis.probes (redis.trace w') = redis.probes (redis.trace w))
  /\ (forall r w', redis.initialize lib w = (r, w') ->
        (exists h, r = Ok h) \/
        (redis.url_absent w \/ redis.url_malformed lib w)).
Proof.
  split; [|split].
  - intros [H | H].
    + eexists. by apply initialize_absent.
    + eexists. by apply initialize_malformed.
  - intros u Hu. eexists. split; [by apply initialize_configured|].
    simpl. repeat split.
    unfold redis.probes. rewrite List.filter_app, length_app. simpl. lia.
  - intros r w' H.
    destruct (url_cases w) as [Ha | [Hm | [u Hu]]].
    + right. by left.
    + right. by right.
    + left. rewrite (initialize_configured _ _ Hu) in H.
      inversion H. eauto.
Qed.

(** *** [close] *)

Example close_ready :
  redis.close scenario.healthy scenario.ready
  = (Ok tt,
     redis.World None false (Some scenario.url) 1
       [redis.EvFromUrl scenario.url 0; redis.EvPing 0 None;
        redis.EvAclose 0 None]).
Proof. reflexivity. Qed.

Example close_stuck :
  redis.close scenario.stuck_close scenario.ready
  = (Raise (RedisError "Timed out closing connection"),
     redis.World (Some 0) true (Some scenario.url) 1
       [redis.EvFromUrl scenario.url 0; redis.EvPing 0 None;
        redis.EvAclose 0 (Some (RedisError "Timed out closing connection"))]).
Proof. reflexivity. Qed.

Lemma close_without_handle w :
  redis.client w = None ->
  redis.close lib w = (Ok tt, redis.set_initialized false w).
Proof.
  intros H. unfold redis.close. unfold_m. rewrite H. reflexivity.
Qed.

Lemma close_with_handle w h :
  redis.client w = Some h ->
  redis.close lib w
  = match redis.aclose_reply lib (redis.trace w) h with
    | None => (Ok tt,
               redis.set_initialized false
                 (redis.set_client None
                    (redis.emit (redis.EvAclose h None) w)))
    | Some e => (Raise e, redis.emit (redis.EvAclose h (Some e)) w)
    end.
Proof.
  intros H. unfold redis.close. unfold_m. rewrite H.
  destruct (redis.aclose_reply lib (redis.trace w) h); reflexivity.
Qed.

Lemma close_returns_cleared w w' :
  redis.close lib w = (Ok tt, w') ->
  redis.client w' = None /\ redis._initialized w' = false.
Proof.
  intros H. destruct (redis.client w) as [h|] eqn:E.
  - rewrite (close_with_handle _ _ E) in H.
    destruct (redis.aclose_reply lib (redis.trace w) h); inversion H.
    simpl. auto.
  - rewrite (close_without_handle _ E) in H. inversion H. simpl. auto.
Qed.

(** C6, as amended: [close] never raises by itself.  Without a handle it
    calls nothing, does not raise, and leaves [client] at [None] with
    [_initialized] false.  With a handle it awaits [aclose] on it, and when
    that returns it clears [client] and resets [_initialized].  Whenever
    [close] returns, [client] is [None] and [_initialized] is false. *)
Theorem close_clears_when_aclose_returns (w : redis.world) :
  (redis.client w = None ->
     exists w', redis.close lib w = (Ok tt, w')
       /\ redis.client w' = None /\ redis._initialized w' = false
       /\ redis.trace w' = redis.trace w)
  /\ (forall h, redis.client w = Some h ->
        redis.aclose_reply lib (redis.trace w) h = None ->
        exists w', redis.close lib w = (Ok tt, w')
          /\ redis.client w' = None /\ redis._initialized w' = false
          /\ redis.trace w' = (redis.trace w ++ [redis.EvAclose h None])%list)
  /\ (forall w', redis.close lib w = (Ok tt, w') ->
        redis.client w' = None /\ redis._initialized w' = false).
Proof.
  split; [|split].
  - intros H. eexists. split; [by apply close_without_handle|].
    simpl. auto.
  - intros h H Hr. eexists. split.
    + rewrite (close_with_handle _ _ H), Hr. reflexivity.
    + simpl. auto.
  - intros w' H. by apply (close_returns_cleared w).
Qed.

(** *** The operations *)

Lemma invoke_handle h c w :
  redis.invoke lib (Some h) c w
  = (redis.reply lib (redis.trace w) h c,
     redis.emit (redis.EvCommand h c (redis.reply lib (redis.trace w) h c)) w).
Proof. reflexivity. Qed.

Lemma run_get_client_raises op w e w1 :
  redis.get_client lib policy w = (Raise e, w1) ->
  redis.run lib policy op w = (Raise e, w1).
Proof.
  intros H.
  destruct op; simpl;
    unfold redis.set, redis.get, redis.delete, redis.publish,
           redis.create_pubsub, redis.rpush, redis.lrange, redis.keys,
           redis.bind;
    rewrite H; reflexivity.
Qed.

Lemma run_get_client_returns op w c w1 :
  redis.get_client lib policy w = (Ok c, w1) ->
  redis.run lib policy op w
  = match op, redis.invoke lib c (redis.command_of op) w1 with
    | redis.OpGet _ default, (Ok result, w2) =>
        (Ok (if negb (is_none result) then result else default), w2)
    | _, r => r
    end.
Proof.
  intros H.
  destruct op; simpl;
    unfold redis.set, redis.get, redis.delete, redis.publish,
           redis.create_pubsub, redis.rpush, redis.lrange, redis.keys,
           redis.bind, redis.ret;
    rewrite H; try reflexivity;
    match goal with |- context [redis.invoke ?l ?c ?k ?w] =>
      destruct (redis.invoke l c k w) as [[?|?] ?] end; reflexivity.
Qed.

Lemma run_delegates op w c w1 :
  redis.get_client lib policy w = (Ok c, w1) ->
  snd (redis.run lib policy op w)
  = snd (redis.invoke lib c (redis.command_of op) w1)
  /\ (forall e, fst (redis.invoke lib c (redis.command_of op) w1) = Raise e ->
                fst (redis.run lib policy op w) = Raise e)
  /\ (forall h, c = Some h ->
        redis.trace (snd (redis.run lib policy op w))
        = (redis.trace w1 ++
           [redis.EvCommand h (redis.command_of op)
              (redis.reply lib (redis.trace w1) h (redis.command_of op))])%list).
Proof.
  intros H. rewrite (run_get_client_returns op _ _ _ H).
  repeat split.
  - destruct op; try reflexivity.
    destruct (redis.invoke lib c _ w1) as [[?|?] ?]; reflexivity.
  - intros e He.
    destruct op; simpl in *;
      match goal with |- context [redis.invoke ?l ?c ?k ?w] =>
        destruct (redis.invoke l c k w) as [[?|?] ?] end;
      simpl in *; congruence.
  - intros h ->. rewrite invoke_handle.
    destruct op; try reflexivity.
    simpl. destruct (redis.reply lib (redis.trace w1) h _); reflexivity.
Qed.

(** C4: every public operation calls [get_client] first.  When that
    raises, the operation raises the same exception, leaves the module
    as [get_client] left it, and nothing is sent to the client.  When it
    returns a handle, the operation sends exactly one command to that
    handle, after everything [get_client] did, and what the client
    answers is what the caller gets: an exception raised by the client is
    raised by the operation unchanged, never caught or turned into a
    value, and a value is returned as it is ([get] putting its default in
    the place of [None]). *)
Theorem operations_go_through_get_client
    (op : redis.operation) (w : redis.world) :
  (forall e w1, redis.get_client lib policy w = (Raise e, w1) ->
     redis.run lib policy op w = (Raise e, w1))
  /\ (forall h w1, redis.get_client lib policy w = (Ok (Some h), w1) ->
        snd (redis.run lib policy op w)
        = redis.emit
            (redis.EvCommand h (redis.command_of op)
               (redis.reply lib (redis.trace w1) h (redis.command_of op)))
            w1
        /\ (forall e,
              redis.reply lib (redis.trace w1) h (redis.command_of op)
              = Raise e ->
              fst (redis.run lib policy op w) = Raise e)
        /\ (forall v,
              redis.reply lib (redis.trace w1) h (redis.command_of op)
              = Ok v ->
              fst (redis.run lib policy op w)
              = Ok match op with
                   | redis.OpGet _ default =>
                       if negb (is_none v) then v else default
                   | _ => v
                   end)).
Proof.
  split.
  - intros e w1 H. by apply run_get_client_raises.
  - intros h w1 H. rewrite (run_get_client_returns op _ _ _ H).
    rewrite invoke_handle.
    repeat split.
    + destruct op; try reflexivity.
      simpl. destruct (redis.reply lib (redis.trace w1) h _); reflexivity.
    + intros e He. destruct op; simpl in *; by rewrite He.
    + intros v Hv. destruct op; simpl in *; by rewrite Hv.
Qed.

(** C3: when [get_client] has returned a handle and the client answers
    the lookup with a value, [get] returns that value; when it answers
    [None], [get] returns the default it was given, whatever it is, and
    does not raise.  [get] raises only what [get_client] raised or what
    the call on the client raised. *)
Theorem get_value_or_default (key : string) (default : pyval)
    (w : redis.world) :
  (forall h w1, redis.get_client lib policy w = (Ok (Some h), w1) ->
     (forall v, redis.reply lib (redis.trace w1) h (redis.CmdGet key) = Ok v ->
        v <> PyNone ->
        fst (redis.get lib policy key default w) = Ok v)
     /\ (redis.reply lib (redis.trace w1) h (redis.CmdGet key) = Ok PyNone ->
         fst (redis.get lib policy key default w) = Ok default))
  /\ (forall e, fst (redis.get lib policy key default w) = Raise e ->
        fst (redis.get_client lib policy w) = Raise e
        \/ exists c w1, redis.get_client lib policy w = (Ok c, w1)
             /\ fst (redis.invoke lib c (redis.CmdGet key) w1) = Raise e).
Proof.
  split.
  - intros h w1 H.
    pose proof (run_get_client_returns (redis.OpGet key default) _ _ _ H)
      as Hrun.
    simpl in Hrun. rewrite Hrun. split.
    + intros v Hv Hne. rewrite Hv. simpl. destruct v; simpl; congruence.
    + intros Hv. rewrite Hv. reflexivity.
  - intros e He.
    destruct (redis.get_client lib policy w) as [[c|e'] w1] eqn:H.
    + right. exists c, w1. split; [reflexivity|].
      pose proof (run_get_client_returns (redis.OpGet key default) _ _ _ H)
        as Hrun.
      simpl in Hrun. rewrite Hrun in He.
      destruct (redis.invoke lib c (redis.CmdGet key) w1) as [[?|?] ?];
        simpl in *; congruence.
    + left.
      pose proof (run_get_client_raises (redis.OpGet key default) _ _ _ H)
        as Hrun.
      simpl in Hrun. rewrite Hrun in He. simpl in *. congruence.
Qed.

(** C8: the safety TTL is 86400 seconds, and [set] does not apply it:
    once [get_client] has returned a handle, [set] forwards the expiry it
    was given, so a call without [ex] sends [ex=None] to the client. *)
Theorem safety_ttl_not_applied (key value : string) (w : redis.world) :
  redis.REDIS_KEY_TTL = 86400%Z
  /\ (forall h w1, redis.get_client lib policy w = (Ok (Some h), w1) ->
        (forall ex nx,
           snd (redis.set lib policy key value ex nx w)
           = redis.emit
               (redis.EvCommand h (redis.CmdSet key value ex nx)
                  (redis.reply lib (redis.trace w1) h
                     (redis.CmdSet key value ex nx))) w1)
        /\ snd (redis.set_default_args lib policy key value w)
           = redis.emit
               (redis.EvCommand h (redis.CmdSet key value None false)
                  (redis.reply lib (redis.trace w1) h
                     (redis.CmdSet key value None false))) w1).
Proof.
  split; [reflexivity|].
  intros h w1 H.
  assert (Hset : forall ex nx,
    snd (redis.set lib policy key value ex nx w)
    = redis.emit
        (redis.EvCommand h (redis.CmdSet key value ex nx)
           (redis.reply lib (redis.trace w1) h
              (redis.CmdSet key value ex nx))) w1).
  { intros ex nx.
    pose proof (run_get_client_returns (redis.OpSet key value ex nx) _ _ _ H)
      as Hrun.
    simpl in Hrun. rewrite Hrun. reflexivity. }
  split; [exact Hset|]. apply Hset.
Qed.

(** *** [initialize_async], [retry] and [get_client] *)

Lemma enter_not_initialized w u :
  redis.url_configured lib w u -> redis._initialized w = false ->
  redis.initialize_async_enter lib w = (Ok tt, redis.fresh_client u w).
Proof.
  intros Hu Hi. unfold redis.initialize_async_enter, redis.bind, redis.read.
  rewrite Hi. simpl. rewrite (initialize_configured _ _ Hu). reflexivity.
Qed.

Lemma enter_initialized w :
  redis._initialized w = true ->
  redis.initialize_async_enter lib w = (Ok tt, w).
Proof.
  intros Hi. unfold redis.initialize_async_enter, redis.bind, redis.read.
  rewrite Hi. reflexivity.
Qed.

Lemma enter_configured w u :
  redis.url_configured lib w u ->
  exists w1, redis.initialize_async_enter lib w = (Ok tt, w1)
    /\ redis.url_configured lib w1 u
    /\ redis.next_handle w <= redis.next_handle w1
    /\ exists evs, redis.trace w1 = (redis.trace w ++ evs)%list.
Proof.
  intros Hu. destruct (redis._initialized w) eqn:Hi.
  - exists w. rewrite (enter_initialized _ Hi).
    repeat split; try apply Hu; [lia|]. exists []. by rewrite app_nil_r.
  - exists (redis.fresh_client u w). rewrite (enter_not_initialized _ _ Hu Hi).
    repeat split; try apply Hu; [simpl; lia|]. eexists. reflexivity.
Qed.

Lemma initialize_async_split w w1 :
  redis.initialize_async_enter lib w = (Ok tt, w1) ->
  redis.initialize_async lib w
  = redis.initialize_async_resume (fst (redis.ping lib w1))
      (snd (redis.ping lib w1)).
Proof.
  intros H. unfold redis.initialize_async, redis.bind. rewrite H.
  destruct (redis.ping lib w1). reflexivity.
Qed.

Lemma ping_cases w :
  (redis.client w = None
   /\ redis.ping lib w
      = (Raise (AttributeError (redis.none_attr_msg "ping")), w))
  \/ (exists h, redis.client w = Some h
        /\ redis.ping lib w
           = (redis.outcome (redis.ping_reply lib (redis.trace w) h),
              redis.emit
                (redis.EvPing h (redis.ping_reply lib (redis.trace w) h)) w)).
Proof.
  unfold redis.ping. destruct (redis.client w) as [h|]; [right|left]; eauto.
Qed.

Lemma initialize_async_raises w u e w' :
  redis.url_configured lib w u ->
  redis.initialize_async lib w = (Raise e, w') ->
  redis.client w' = None /\ redis._initialized w' = false
  /\ redis.url_configured lib w' u /\ redis.probe_error e w'.
Proof.
  intros Hu H.
  destruct (enter_configured _ _ Hu) as (w1 & He & Hu1 & _ & _).
  rewrite (initialize_async_split _ _ He) in H.
  destruct (ping_cases w1) as [(Hc & Hp) | (h & Hc & Hp)]; rewrite Hp in H.
  - simpl in H. inversion H; subst. simpl.
    repeat split; try apply Hu1. by left.
  - simpl in H.
    destruct (redis.ping_reply lib (redis.trace w1) h) as [e'|] eqn:Hr;
      simpl in H; inversion H; subst. simpl.
    repeat split; try apply Hu1. right. eauto.
Qed.

Lemma initialize_async_trace w u r w' :
  redis.url_configured lib w u ->
  redis.initialize_async lib w = (r, w') ->
  redis.url_configured lib w' u
  /\ redis.next_handle w <= redis.next_handle w'
  /\ exists evs, redis.trace w' = (redis.trace w ++ evs)%list.
Proof.
  intros Hu H.
  destruct (enter_configured _ _ Hu) as (w1 & He & Hu1 & Hn & evs & Ht).
  rewrite (initialize_async_split _ _ He) in H.
  destruct (ping_cases w1) as [(Hc & Hp) | (h & Hc & Hp)]; rewrite Hp in H;
    simpl in H.
  - inversion H; subst. simpl. repeat split; try apply Hu1; [done|eauto].
  - destruct (redis.ping_reply lib (redis.trace w1) h) as [e'|] eqn:Hr;
      simpl in H; inversion H; subst; simpl;
      (repeat split; try apply Hu1; [done|]);
      rewrite Ht, <- app_assoc; eauto.
Qed.

Lemma retry_loop_unfold {A} n (operation : redis.M A) w :
  redis.retry_loop policy n operation w
  = match operation w with
    | (Ok a, w') => (Ok a, w')
    | (Raise e, w') =>
        match n with
        | O => (Raise e, w')
        | S n' => if redis.retryable policy e
                  then redis.retry_loop policy n' operation w'
                  else (Raise e, w')
        end
    end.
Proof.
  destruct n; simpl; unfold redis.try_except;
    destruct (operation w) as [[a|e] w']; try reflexivity.
  destruct (redis.retryable policy e); reflexivity.
Qed.

Lemma retry_loop_raises n : forall w u e w',
  redis.url_configured lib w u ->
  redis.retry_loop policy n (redis.initialize_async lib) w = (Raise e, w') ->
  redis.client w' = None /\ redis._initialized w' = false
  /\ redis.url_configured lib w' u /\ redis.probe_error e w'.
Proof.
  induction n as [|n IH]; intros w u e w' Hu H;
    rewrite retry_loop_unfold in H;
    destruct (redis.initialize_async lib w) as [[a|e1] w1] eqn:Ha;
    try discriminate.
  - inversion H; subst. eapply initialize_async_raises; eauto.
  - destruct (redis.retryable policy e1).
    + eapply IH; [|exact H].
      eapply initialize_async_raises; eauto.
    + inversion H; subst. eapply initialize_async_raises; eauto.
Qed.

Lemma retry_loop_trace n : forall w u r w',
  redis.url_configured lib w u ->
  redis.retry_loop policy n (redis.initialize_async lib) w = (r, w') ->
  redis.next_handle w <= redis.next_handle w'
  /\ exists evs, redis.trace w' = (redis.trace w ++ evs)%list.
Proof.
  induction n as [|n IH]; intros w u r w' Hu H;
    rewrite retry_loop_unfold in H;
    destruct (redis.initialize_async lib w) as [[a|e1] w1] eqn:Ha;
    destruct (initialize_async_trace _ _ _ _ Hu Ha) as (Hu1 & Hn & evs & Ht).
  - inversion H; subst. eauto.
  - inversion H; subst. eauto.
  - inversion H; subst. eauto.
  - destruct (redis.retryable policy e1).
    + destruct (IH _ _ _ _ Hu1 H) as (Hn' & evs' & Ht').
      split; [lia|]. rewrite Ht', Ht, <- app_assoc. eauto.
    + inversion H; subst. eauto.
Qed.

Lemma get_client_unfold w :
  redis.get_client lib policy w
  = if redis.needs_init w
    then match redis.retry policy (redis.initialize_async lib) w with
         | (Ok _, w') => (Ok (redis.client w'), w')
         | (Raise e, w') => (Raise e, w')
         end
    else (Ok (redis.client w), w).
Proof.
  unfold redis.get_client, redis.bind, redis.read, redis.ret.
  destruct (redis.needs_init w); [|reflexivity].
  destruct (redis.retry policy (redis.initialize_async lib) w) as [[a|e] w'];
    reflexivity.
Qed.

Lemma get_client_raises w u e w' :
  redis.url_configured lib w u ->
  redis.get_client lib policy w = (Raise e, w') ->
  redis.client w' = None /\ redis._initialized w' = false
  /\ redis.url_configured lib w' u /\ redis.probe_error e w'.
Proof.
  intros Hu H. rewrite get_client_unfold in H.
  destruct (redis.needs_init w); [|discriminate].
  unfold redis.retry in H.
  destruct (redis.retry_loop policy _ _ w) as [[a|e1] w1] eqn:Hr;
    inversion H; subst.
  eapply retry_loop_raises; eauto.
Qed.

(** From a state that is not initialized, the first attempt builds a new
    handle and probes it. *)
Lemma first_attempt w u :
  redis.url_configured lib w u -> redis._initialized w = false ->
  exists w1,
    redis.initialize_async lib w
    = (match redis.first_probe lib u w with
       | None => Ok (Some (redis.next_handle w))
       | Some e => Raise e
       end, w1)
    /\ redis.trace w1
       = (redis.trace w ++
          [redis.EvFromUrl u (redis.next_handle w);
           redis.EvPing (redis.next_handle w) (redis.first_probe lib u w)])%list
    /\ (redis.first_probe lib u w = None ->
        redis.client w1 = Some (redis.next_handle w)
        /\ redis._initialized w1 = true).
Proof.
  intros Hu Hi.
  rewrite (initialize_async_split _ _ (enter_not_initialized _ _ Hu Hi)).
  unfold redis.ping, redis.first_probe. simpl.
  destruct (redis.ping_reply lib _ (redis.next_handle w)) as [e|];
    simpl; eexists; (split; [reflexivity|]); simpl;
    rewrite <- app_assoc; split; try reflexivity; try discriminate.
  intros _. split; reflexivity.
Qed.

Lemma get_client_fresh w u r w' :
  redis.url_configured lib w u -> redis._initialized w = false ->
  redis.get_client lib policy w = (r, w') ->
  exists rest,
    redis.trace w'
    = (redis.trace w ++
       redis.EvFromUrl u (redis.next_handle w)
       :: redis.EvPing (redis.next_handle w) (redis.first_probe lib u w)
       :: rest)%list
    /\ (redis.first_probe lib u w = None ->
        r = Ok (Some (redis.next_handle w)) /\ rest = []
        /\ redis.client w' = Some (redis.next_handle w)
        /\ redis._initialized w' = true).
Proof.
  intros Hu Hi H. rewrite get_client_unfold in H.
  assert (Hn : redis.needs_init w = true).
  { unfold redis.needs_init. rewrite Hi. by rewrite orb_true_r. }
  rewrite Hn in H. unfold redis.retry in H.
  rewrite retry_loop_unfold in H.
  destruct (first_attempt _ _ Hu Hi) as (w1 & Ha & Ht & Hok).
  rewrite Ha in H.
  destruct (redis.first_probe lib u w) as [e|] eqn:Hp.
  - assert (Hrest : exists evs,
              redis.trace w' = (redis.trace w1 ++ evs)%list).
    { destruct (redis.retries policy) as [|n].
      - inversion H; subst. exists []. by rewrite app_nil_r.
      - destruct (redis.retryable policy e).
        + destruct (redis.retry_loop policy n _ w1) as [r2 w2] eqn:Hr.
          assert (Hu1 : redis.url_configured lib w1 u).
          { eapply initialize_async_trace; [exact Hu|exact Ha]. }
          destruct (retry_loop_trace _ _ _ _ _ Hu1 Hr) as (_ & evs & Hevs).
          destruct r2; inversion H; subst; eauto.
        + inversion H; subst. exists []. by rewrite app_nil_r. }
    destruct Hrest as (evs & Hevs). exists evs.
    split; [|discriminate].
    rewrite Hevs, Ht, <- app_assoc. reflexivity.
  - inversion H; subst. exists []. split; [exact Ht|].
    intros _. destruct (Hok eq_refl) as (Hc & Hi'). rewrite Hc. auto.
Qed.

(** C2: with a usable connection URL, a ping that raises makes
    [initialize_async] set [client] to [None] and [_initialized] to false
    and raise that exception.  When [get_client] raises, after the
    attempts [retry] allows, the module is in that state and the exception
    is the one of the last failed ping; the next [get_client] then does
    not skip the construction: it builds a handle no earlier call has
    seen, probes it, and returns it when the probe succeeds. *)
Theorem ping_failure_discards_handle (w : redis.world) (u : string) :
  redis.url_configured lib w u ->
  (forall w1 e w2,
     redis.initialize_async_enter lib w = (Ok tt, w1) ->
     redis.ping lib w1 = (Raise e, w2) ->
     exists w', redis.initialize_async lib w = (Raise e, w')
       /\ redis.client w' = None /\ redis._initialized w' = false)
  /\ (forall e w', redis.get_client lib policy w = (Raise e, w') ->
        redis.client w' = None /\ redis._initialized w' = false
        /\ redis.probe_error e w'
        /\ forall r w'', redis.get_client lib policy w' = (r, w'') ->
             exists rest,
               redis.trace w''
               = (redis.trace w' ++
                  redis.EvFromUrl u (redis.next_handle w')
                  :: redis.EvPing (redis.next_handle w')
                       (redis.first_probe lib u w')
                  :: rest)%list
               /\ (redis.first_probe lib u w' = None ->
                   r = Ok (Some (redis.next_handle w'))
                   /\ redis.client w'' = Some (redis.next_handle w')
                   /\ redis._initialized w'' = true)).
Proof.
  intros Hu. split.
  - intros w1 e w2 He Hp.
    rewrite (initialize_async_split _ _ He), Hp. simpl.
    eexists. split; [reflexivity|]. simpl. auto.
  - intros e w' H.
    destruct (get_client_raises _ _ _ _ Hu H) as (Hc & Hi & Hu' & Hpe).
    repeat split; try assumption.
    intros r w'' H2.
    destruct (get_client_fresh _ _ _ _ Hu' Hi H2) as (rest & Ht & Hok).
    exists rest. split; [exact Ht|].
    intros Hp. destruct (Hok Hp) as (? & ? & ? & ?). auto.
Qed.

Lemma close_keeps_environment w r w' :
  redis.close lib w = (r, w') ->
  redis.environ_REDIS_URL w' = redis.environ_REDIS_URL w
  /\ redis.next_handle w' = redis.next_handle w.
Proof.
  intros H. destruct (redis.client w) as [h|] eqn:E.
  - rewrite (close_with_handle _ _ E) in H.
    destruct (redis.aclose_reply lib (redis.trace w) h); inversion H;
      subst; simpl; auto.
  - rewrite (close_without_handle _ E) in H. inversion H. simpl. auto.
Qed.

(** C7: after [close] has returned, the next operation, whichever it is,
    does not find a ready client: it builds a new handle and probes it
    before anything else, and when the probe succeeds the module is
    ready again with the new handle, which is not the closed one, and the
    operation's command goes to it. *)
Theorem operation_after_close_reinitializes
    (w : redis.world) (u : string) (op : redis.operation) :
  redis.url_configured lib w u ->
  redis.consistent w ->
  forall w1, redis.close lib w = (Ok tt, w1) ->
    redis.needs_init w1 = true
    /\ redis.client w <> Some (redis.next_handle w1)
    /\ exists rest,
         redis.trace (snd (redis.run lib policy op w1))
         = (redis.trace w1 ++
            redis.EvFromUrl u (redis.next_handle w1)
            :: redis.EvPing (redis.next_handle w1)
                 (redis.first_probe lib u w1)
            :: rest)%list
         /\ (redis.first_probe lib u w1 = None ->
             redis.client (snd (redis.run lib policy op w1))
             = Some (redis.next_handle w1)
             /\ redis._initialized (snd (redis.run lib policy op w1)) = true
             /\ exists r,
                  rest = [redis.EvCommand (redis.next_handle w1)
                            (redis.command_of op) r]).
Proof.
  intros Hu Hcons w1 Hclose.
  destruct (close_returns_cleared _ _ Hclose) as (Hc & Hi).
  destruct (close_keeps_environment _ _ _ Hclose) as (Henv & Hnext).
  assert (Hu1 : redis.url_configured lib w1 u).
  { destruct Hu as (? & ? & ?). repeat split; congruence. }
  split; [unfold redis.needs_init; by rewrite Hc|].
  split.
  { intros Heq. apply Hcons in Heq. lia. }
  destruct (redis.get_client lib policy w1) as [[c|e] w2] eqn:Hg.
  - destruct (get_client_fresh _ _ _ _ Hu1 Hi Hg) as (rest & Ht & Hok).
    destruct (run_delegates op _ _ _ Hg) as (Hsnd & _ & Htr).
    destruct c as [h|].
    + exists (rest ++ [redis.EvCommand h (redis.command_of op)
                         (redis.reply lib (redis.trace w2) h
                            (redis.command_of op))])%list.
      split.
      * rewrite (Htr h eq_refl), Ht, <- app_assoc. reflexivity.
      * intros Hp. destruct (Hok Hp) as (Hr & -> & Hc2 & Hi2).
        inversion Hr; subst h. rewrite Hsnd. simpl.
        repeat split; try assumption. eauto.
    + exists rest. rewrite Hsnd. simpl. split; [exact Ht|].
      intros Hp. destruct (Hok Hp) as (Hr & _). discriminate.
  - rewrite (run_get_client_raises op _ _ _ Hg). simpl.
    destruct (get_client_fresh _ _ _ _ Hu1 Hi Hg) as (rest & Ht & Hok).
    exists rest. split; [exact Ht|].
    intros Hp. destruct (Hok Hp) as (Hr & _). discriminate.
Qed.

End RedisSequential.

(* witness of C5 *)
Lemma initialize_config_error_or_handle_witness :
  (exists msg, redis.initialize scenario.healthy (redis.start None)
               = (Raise (ValueError msg), redis.start None))
  /\ (exists w', redis.initialize scenario.healthy scenario.fresh = (Ok 0, w')
                 /\ redis.client w' = Some 0).
Proof.
  destruct (initialize_config_error_or_handle scenario.healthy
              (redis.start None)) as (H1 & _ & _).
  destruct (initialize_config_error_or_handle scenario.healthy
              scenario.fresh) as (_ & H2 & _).
  split.
  - apply H1. left. left. reflexivity.
  - destruct (H2 scenario.url) as (w' & Hw & Hc & _).
    + repeat split. discriminate.
    + exists w'. split; assumption.
Defined.

(* witness of C6 *)
Lemma close_clears_when_aclose_returns_witness :
  (exists w', redis.close scenario.healthy scenario.fresh = (Ok tt, w')
     /\ redis.client w' = None /\ redis._initialized w' = false
     /\ redis.trace w' = redis.trace scenario.fresh)
  /\ (exists w', redis.close scenario.healthy scenario.ready = (Ok tt, w')
        /\ redis.client w' = None /\ redis._initialized w' = false
        /\ redis.trace w'
           = (redis.trace scenario.ready ++ [redis.EvAclose 0 None])%list).
Proof.
  destruct (close_clears_when_aclose_returns scenario.healthy scenario.fresh)
    as (H1 & _ & _).
  destruct (close_clears_when_aclose_returns scenario.healthy scenario.ready)
    as (_ & H2 & _).
  split.
  - apply H1. reflexivity.
  - apply (H2 0); reflexivity.
Defined.

(** C6 as stated fails: when [aclose] raises, [close] raises too, the
    handle is still in [client] and [_initialized] is still true. *)
Lemma close_keeps_handle_when_aclose_raises :
  ~ (forall (lib : redis.RedisLib) (w : redis.world),
       fst (redis.close lib w) = Ok tt
       /\ redis.client (snd (redis.close lib w)) = None
       /\ redis._initialized (snd (redis.close lib w)) = false).
Proof.
  intros H.
  destruct (H scenario.stuck_close scenario.ready) as (H1 & _).
  vm_compute in H1. discriminate.
Qed.

(* witness of C4 *)
Lemma operations_go_through_get_client_witness :
  redis.run scenario.unreachable scenario.three_attempts
    (redis.OpGet "k" PyNone) scenario.fresh
  = (Raise scenario.refused,
     snd (redis.get_client scenario.unreachable scenario.three_attempts
            scenario.fresh))
  /\ fst (redis.run scenario.unreachable scenario.three_attempts
            (redis.OpGet "k" (PyStr "d")) scenario.ready)
     = Raise scenario.refused
  /\ snd (redis.run scenario.healthy scenario.three_attempts
            (redis.OpDelete "k") scenario.fresh)
     = redis.emit
         (redis.EvCommand 0 (redis.CmdDelete "k") (Ok (PyInt 0)))
         scenario.ready
  /\ fst (redis.run scenario.healthy scenario.three_attempts
            (redis.OpDelete "k") scenario.fresh)
     = Ok (PyInt 0).
Proof.
  split; [|split; [|split]].
  - apply (operations_go_through_get_client scenario.unreachable
             scenario.three_attempts (redis.OpGet "k" PyNone) scenario.fresh).
    reflexivity.
  - destruct (operations_go_through_get_client scenario.unreachable
                scenario.three_attempts (redis.OpGet "k" (PyStr "d"))
                scenario.ready) as (_ & H).
    destruct (H 0 scenario.ready) as (_ & Hraise & _); [reflexivity|].
    apply Hraise. reflexivity.
  - destruct (operations_go_through_get_client scenario.healthy
                scenario.three_attempts (redis.OpDelete "k") scenario.fresh)
      as (_ & H).
    destruct (H 0 scenario.ready) as (Hsnd & _ & _); [reflexivity|].
    exact Hsnd.
  - destruct (operations_go_through_get_client scenario.healthy
                scenario.three_attempts (redis.OpDelete "k") scenario.fresh)
      as (_ & H).
    destruct (H 0 scenario.ready) as (_ & _ & Hok); [reflexivity|].
    apply (Hok (PyInt 0)). reflexivity.
Defined.

(* witness of C3 *)
Lemma get_value_or_default_witness :
  fst (redis.get scenario.healthy scenario.three_attempts "k" (PyStr "d")
         scenario.fresh) = Ok (PyStr "d").
Proof.
  destruct (get_value_or_default scenario.healthy scenario.three_attempts
              "k" (PyStr "d") scenario.fresh) as (H & _).
  destruct (H 0 scenario.ready) as (_ & H2); [reflexivity|].
  apply H2. reflexivity.
Defined.

(* witness of C8 *)
Lemma safety_ttl_not_applied_witness :
  snd (redis.set_default_args scenario.healthy scenario.three_attempts
         "k" "v" scenario.fresh)
  = redis.emit
      (redis.EvCommand 0 (redis.CmdSet "k" "v" None false) (Ok (PyBool true)))
      scenario.ready.
Proof.
  destruct (safety_ttl_not_applied scenario.healthy scenario.three_attempts
              "k" "v" scenario.fresh) as (_ & H).
  destruct (H 0 scenario.ready) as (_ & H2); [reflexivity|].
  exact H2.
Defined.

Lemma scenario_url_configured lib w :
  redis.url_wellformed lib = scenario.scheme_ok ->
  redis.environ_REDIS_URL w = Some scenario.url ->
  redis.url_configured lib w scenario.url.
Proof.
  intros Hl Hw. repeat split; [exact Hw | discriminate |].
  rewrite Hl. reflexivity.
Qed.

(* witness of C2 *)
Lemma ping_failure_discards_handle_witness :
  exists w',
    redis.get_client scenario.flaky scenario.single_attempt scenario.fresh
    = (Raise scenario.refused, w')
    /\ redis.client w' = None /\ redis._initialized w' = false
    /\ fst (redis.get_client scenario.flaky scenario.single_attempt w')
       = Ok (Some 1).
Proof.
  eexists. split; [reflexivity|].
  destruct (ping_failure_discards_handle scenario.flaky
              scenario.single_attempt scenario.fresh scenario.url)
    as (_ & H).
  { apply scenario_url_configured; reflexivity. }
  destruct (H scenario.refused _ eq_refl) as (Hc & Hi & _ & Hnext).
  split; [exact Hc|]. split; [exact Hi|].
  match goal with |- fst ?X = _ =>
    destruct (Hnext (fst X) (snd X)) as (rest & _ & Hok);
      [destruct X; reflexivity|]
  end.
  destruct Hok as (Hr & _); [reflexivity|]. exact Hr.
Defined.

(* witness of C7 *)
Lemma operation_after_close_reinitializes_witness :
  exists w1,
    redis.close scenario.healthy scenario.ready = (Ok tt, w1)
    /\ redis.client
         (snd (redis.run scenario.healthy scenario.three_attempts
                 (redis.OpGet "k" PyNone) w1)) = Some 1.
Proof.
  eexists. split; [reflexivity|].
  destruct (operation_after_close_reinitializes scenario.healthy
              scenario.three_attempts scenario.ready scenario.url
              (redis.OpGet "k" PyNone)) with (w1 := snd (redis.close scenario.healthy scenario.ready))
    as (_ & _ & rest & _ & Hok).
  - apply scenario_url_configured; reflexivity.
  - intros h Hh. vm_compute in Hh. inversion Hh. simpl. lia.
  - reflexivity.
  - destruct Hok as (Hc & _); [reflexivity|]. exact Hc.
Defined.

(** * Properties of the billing endpoints *)

Section Billing.

Example subscription_at_noon :
  billing.current_period_end
    <$> match billing.get_subscription
                (billing.Clock scenario.noon scenario.noon) "alice" with
        | Ok r => Some r
        | Raise _ => None
        end
  = Some (Some (billing.Datetime 2027 11 3 12 0 0 0)).
Proof. reflexivity. Qed.

Example subscription_on_leap_day :
  billing.get_subscription
    (billing.Clock scenario.leap_day scenario.leap_day) "alice"
  = Raise (ValueError "day is out of range for month").
Proof. reflexivity. Qed.

Lemma get_subscription_ok clk uid r :
  billing.get_subscription clk uid = Ok r ->
  billing.with_period_end None r
  = {| billing.status := "active";
       billing.plan_name := Some "Maximum Tier (Billing Disabled)";
       billing.price_id := Some "maximum_tier";
       billing.current_period_end := None;
       billing.cancel_at_period_end := false;
       billing.trial_end := None;
       billing.minutes_limit := Some 999999%Z;
       billing.cost_limit := Some (999999 # 1);
       billing.current_usage := Some (0 # 1);
       billing.has_schedule := false;
       billing.scheduled_plan_name := None;
       billing.scheduled_price_id := None;
       billing.scheduled_change_date := None |}.
Proof.
  unfold billing.get_subscription.
  destruct (billing.replace_year _ _); [|discriminate].
  intros H. inversion H. reflexivity.
Qed.

(** C9: the two endpoints ignore who is asking.  [check_status] returns
    the same dictionary for any two user ids; [get_subscription] gives
    any two users the same result at the same clock readings, and two
    responses obtained at any clock readings agree on every field other
    than [current_period_end].  Neither endpoint takes or returns any
    state. *)
Theorem billing_stubs_ignore_user (uid1 uid2 : string) :
  billing.check_status uid1 = billing.check_status uid2
  /\ (forall clk,
        billing.get_subscription clk uid1 = billing.get_subscription clk uid2)
  /\ (forall clk1 clk2 r1 r2,
        billing.get_subscription clk1 uid1 = Ok r1 ->
        billing.get_subscription clk2 uid2 = Ok r2 ->
        billing.with_period_end None r1 = billing.with_period_end None r2).
Proof.
  split; [reflexivity|]. split; [reflexivity|].
  intros clk1 clk2 r1 r2 H1 H2.
  rewrite (get_subscription_ok _ _ _ H1), (get_subscription_ok _ _ _ H2).
  reflexivity.
Qed.

Example usage_logs_defaults :
  billing.get_usage_logs_endpoint 0 1000 "alice"
  = Ok (billing.JDict
          [("logs", billing.JList []);
           ("has_more", billing.JBool false);
           ("message", billing.JStr "Billing disabled - no usage tracking")]).
Proof. reflexivity. Qed.

Example usage_logs_zero_items :
  billing.get_usage_logs_endpoint 0 0 "alice"
  = Raise (HTTPException 400 "Items per page must be between 1 and 1000").
Proof. reflexivity. Qed.

(** C10: [get_usage_logs_endpoint] raises an HTTP 400 error exactly when
    [page] is negative or [items_per_page] is below 1 or above 1000, it
    raises nothing else, and for every other pair of parameters it
    returns a dictionary whose [logs] is the empty list and whose
    [has_more] is false. *)
Theorem usage_logs_validates_pagination
    (page items_per_page : Z) (uid : string) :
  ((exists detail,
      billing.get_usage_logs_endpoint page items_per_page uid
      = Raise (HTTPException 400 detail))
   <-> (page < 0 \/ items_per_page < 1 \/ 1000 < items_per_page)%Z)
  /\ (forall e,
        billing.get_usage_logs_endpoint page items_per_page uid = Raise e ->
        exists detail, e = HTTPException 400 detail)
  /\ ((0 <= page)%Z -> (1 <= items_per_page <= 1000)%Z ->
      exists r,
        billing.get_usage_logs_endpoint page items_per_page uid = Ok r
        /\ billing.field "logs" r = Some (billing.JList [])
        /\ billing.field "has_more" r = Some (billing.JBool false)).
Proof.
  unfold billing.get_usage_logs_endpoint, billing.usage_logs_body.
  destruct (Z.ltb_spec page 0) as [Hp | Hp].
  { repeat split.
    - intros _. lia.
    - intros _. eauto.
    - intros e H. inversion H. eauto.
    - intros. lia. }
  destruct (Z.ltb_spec items_per_page 1) as [Hlo | Hlo]; simpl.
  { repeat split.
    - intros _. lia.
    - intros _. eauto.
    - intros e H. inversion H. eauto.
    - intros. lia. }
  rewrite Z.gtb_ltb.
  destruct (Z.ltb_spec 1000 items_per_page) as [Hhi | Hhi]; simpl.
  { repeat split.
    - intros _. lia.
    - intros _. eauto.
    - intros e H. inversion H. eauto.
    - intros. lia. }
  repeat split.
  - intros (d & H). discriminate.
  - intros. lia.
  - intros e H. discriminate.
  - intros _ _. eexists. repeat split.
Qed.

End Billing.

(* witness of C9 *)
Lemma billing_stubs_ignore_user_witness :
  exists r1 r2,
    billing.get_subscription
      (billing.Clock scenario.noon scenario.noon) "alice" = Ok r1
    /\ billing.get_subscription
         (billing.Clock (billing.Datetime 2030 1 1 0 0 0 0)
                        (billing.Datetime 2029 12 31 19 0 0 0)) "bob" = Ok r2
    /\ billing.with_period_end None r1 = billing.with_period_end None r2.
Proof.
  eexists. eexists. split; [reflexivity|]. split; [reflexivity|].
  destruct (billing_stubs_ignore_user "alice" "bob") as (_ & _ & H).
  apply (H (billing.Clock scenario.noon scenario.noon)
           (billing.Clock (billing.Datetime 2030 1 1 0 0 0 0)
                          (billing.Datetime 2029 12 31 19 0 0 0)));
    reflexivity.
Defined.

(* witness of C10 *)
Lemma usage_logs_validates_pagination_witness :
  (exists detail,
     billing.get_usage_logs_endpoint (-1) 10 "alice"
     = Raise (HTTPException 400 detail))
  /\ (exists r,
        billing.get_usage_logs_endpoint 3 1000 "alice" = Ok r
        /\ billing.field "logs" r = Some (billing.JList [])
        /\ billing.field "has_more" r = Some (billing.JBool false)).
Proof.
  split.
  - destruct (usage_logs_validates_pagination (-1) 10 "alice") as (H & _).
    apply H. left. lia.
  - destruct (usage_logs_validates_pagination 3 1000 "alice") as (_ & _ & H).
    apply H; lia.
Defined.

(** * Concurrent first calls of [get_client] *)

Section RedisConcurrent.

Variable lib : redis.RedisLib.
Variable policy : redis.RetryPolicy.

Example two_callers_probe_twice :
  redis.exec scenario.healthy scenario.three_attempts
    (redis.boot (Some scenario.url) 2)
    [redis.Call 0; redis.Call 1; redis.Pong 0 None; redis.Wake 1;
     redis.Pong 1 None]
  = Some (redis.System
            (redis.World (Some 0) true (Some scenario.url) 1
               [redis.EvFromUrl scenario.url 0; redis.EvPing 0 None;
                redis.EvPing 0 None])
            false [] [redis.Returned (Some 0); redis.Returned (Some 0)]).
Proof. reflexivity. Qed.

Example late_caller_skips_the_lock :
  redis.exec scenario.healthy scenario.three_attempts
    (redis.boot (Some scenario.url) 2)
    [redis.Call 0; redis.Pong 0 None; redis.Call 1]
  = Some (redis.System scenario.ready false []
            [redis.Returned (Some 0); redis.Returned (Some 0)]).
Proof. reflexivity. Qed.

Example first_probe_fails_second_caller_rebuilds :
  redis.exec scenario.healthy scenario.single_attempt
    (redis.boot (Some scenario.url) 2)
    [redis.Call 0; redis.Call 1; redis.Pong 0 (Some scenario.refused);
     redis.Wake 1; redis.Pong 1 None]
  = Some (redis.System
            (redis.World (Some 1) true (Some scenario.url) 2
               [redis.EvFromUrl scenario.url 0;
                redis.EvPing 0 (Some scenario.refused);
                redis.EvFromUrl scenario.url 1; redis.EvPing 1 None])
            false []
            [redis.Raised scenario.refused; redis.Returned (Some 1)]).
Proof. reflexivity. Qed.

(** A lone caller goes through the same states as the sequential
    [get_client] (compare [get_client_unreachable]). *)
Example lone_caller_exhausts_retries :
  redis.exec scenario.unreachable scenario.three_attempts
    (redis.boot (Some scenario.url) 1)
    [redis.Call 0; redis.Pong 0 (Some scenario.refused);
     redis.Resume 0; redis.Pong 0 (Some scenario.refused);
     redis.Resume 0; redis.Pong 0 (Some scenario.refused)]
  = Some (redis.System
            (snd (redis.get_client scenario.unreachable
                    scenario.three_attempts scenario.fresh))
            false [] [redis.Raised scenario.refused]).
Proof. reflexivity. Qed.

(** *** Mutual exclusion *)

Lemma insert_lookup_cases (l : list redis.pc) i p j q :
  <[i:=p]> l !! j = Some q ->
  (j = i /\ q = p) \/ (j <> i /\ l !! j = Some q).
Proof.
  intros H. apply list_lookup_insert_Some in H.
  destruct H as [(-> & -> & _) | (Hne & H)]; [left | right]; auto.
Qed.

Lemma after_failure_quiet budget e :
  redis.quiet (redis.after_failure policy budget e).
Proof.
  intros b h. unfold redis.after_failure.
  destruct budget; [discriminate|].
  destruct (redis.retryable policy e); discriminate.
Qed.

Lemma discipline_update s i p g lk ws :
  redis.lock_discipline s -> redis.quiet p ->
  (forall j, j <> i -> ~ redis.in_critical_section s j) ->
  redis.lock_discipline (redis.System g lk ws (<[i:=p]> (redis.tasks s))).
Proof.
  intros (Hfree & Huniq) Hq Hothers.
  assert (Hnone : forall j,
    ~ redis.in_critical_section
        (redis.System g lk ws (<[i:=p]> (redis.tasks s))) j).
  { intros j (b & h & Hj). simpl in Hj.
    apply insert_lookup_cases in Hj as [(-> & Hp) | (Hne & Hj)].
    - symmetry in Hp. by apply Hq in Hp.
    - apply (Hothers j Hne). by exists b, h. }
  split.
  - intros _. exact Hnone.
  - intros j k Hj. by apply Hnone in Hj.
Qed.

Lemma discipline_requeue s i p g ws :
  redis.lock_discipline s -> redis.quiet p ->
  redis.lock_discipline
    (redis.System g (redis.locked s) ws (<[i:=p]> (redis.tasks s))).
Proof.
  intros (Hfree & Huniq) Hq.
  assert (Hold : forall j,
    redis.in_critical_section
      (redis.System g (redis.locked s) ws (<[i:=p]> (redis.tasks s))) j ->
    redis.in_critical_section s j).
  { intros j (b & h & Hj). simpl in Hj.
    apply insert_lookup_cases in Hj as [(-> & Hp) | (Hne & Hj)].
    - symmetry in Hp. by apply Hq in Hp.
    - by exists b, h. }
  split.
  - simpl. intros Hl j Hj. apply (Hfree Hl j). by apply Hold.
  - intros j k Hj Hk. apply Huniq; by apply Hold.
Qed.

Lemma discipline_take s i budget h g ws :
  redis.lock_discipline s -> redis.locked s = false ->
  redis.lock_discipline
    (redis.System g true ws
       (<[i:=redis.Pinging budget h]> (redis.tasks s))).
Proof.
  intros (Hfree & Huniq) Hl.
  assert (Hme : forall j,
    redis.in_critical_section
      (redis.System g true ws
         (<[i:=redis.Pinging budget h]> (redis.tasks s))) j -> j = i).
  { intros j (b & h' & Hj). simpl in Hj.
    apply insert_lookup_cases in Hj as [(-> & Hp) | (Hne & Hj)]; [done|].
    exfalso. apply (Hfree Hl j). by exists b, h'. }
  split.
  - simpl. discriminate.
  - intros j k Hj Hk. apply Hme in Hj, Hk. congruence.
Qed.

Lemma leave_discipline s i budget r :
  redis.lock_discipline s ->
  (forall j, j <> i -> ~ redis.in_critical_section s j) ->
  redis.lock_discipline (redis.leave policy i budget r s).
Proof.
  intros Hd Hothers. unfold redis.leave. destruct r as [res g].
  apply discipline_update; [done| |done].
  destruct res; [discriminate | apply after_failure_quiet].
Qed.

Lemma enter_discipline s i budget :
  redis.lock_discipline s -> redis.locked s = false ->
  redis.lock_discipline (redis.enter lib policy i budget s).
Proof.
  intros Hd Hl.
  assert (Hothers : forall j, j <> i -> ~ redis.in_critical_section s j).
  { intros j _. by apply Hd. }
  unfold redis.enter.
  destruct (redis.initialize_async_enter lib (redis.globals s))
    as [[[]|e] g].
  - destruct (redis.client g) as [h|].
    + by apply discipline_take.
    + destruct (redis.ping lib g) as [r g1]. by apply leave_discipline.
  - by apply leave_discipline.
Qed.

Lemma attempt_discipline s i budget :
  redis.lock_discipline s ->
  redis.lock_discipline (redis.attempt lib policy i budget s).
Proof.
  intros Hd. unfold redis.attempt.
  destruct (negb (redis.locked s) && bool_decide (redis.waiters s = []))
    eqn:E.
  - apply andb_true_iff in E as (E & _). apply negb_true_iff in E.
    by apply enter_discipline.
  - apply discipline_requeue; [done | discriminate].
Qed.

Lemma step_discipline s a s' :
  redis.lock_discipline s -> redis.step lib policy s a = Some s' ->
  redis.lock_discipline s'.
Proof.
  intros Hd H. destruct a as [i | i | i r | i]; simpl in H.
  - destruct (redis.tasks s !! i) as [[]|]; try discriminate.
    destruct (redis.needs_init (redis.globals s)); inversion H; subst.
    + by apply attempt_discipline.
    + apply discipline_requeue; [done | discriminate].
  - destruct (redis.tasks s !! i) as [[]|]; try discriminate.
    destruct (redis.waiters s) as [|j rest]; try discriminate.
    destruct (redis.locked s) eqn:Hl; try discriminate.
    destruct (bool_decide (i = j)); inversion H; subst.
    apply enter_discipline; [|reflexivity].
    destruct Hd as (Hfree & Huniq). split.
    + intros _ k. apply (Hfree Hl k).
    + exact Huniq.
  - destruct (redis.tasks s !! i) as [[]|] eqn:Hi; try discriminate.
    inversion H; subst. apply leave_discipline; [done|].
    intros j Hne Hj. apply Hne. apply Hd; [done|]. eexists _, _. exact Hi.
  - destruct (redis.tasks s !! i) as [[]|]; try discriminate.
    inversion H; subst. by apply attempt_discipline.
Qed.

Lemma boot_discipline url n : redis.lock_discipline (redis.boot url n).
Proof.
  assert (H : forall i, ~ redis.in_critical_section (redis.boot url n) i).
  { intros i (b & h & Hi). simpl in Hi.
    apply lookup_replicate_1 in Hi as (Hi & _). discriminate. }
  split; [by intros _|]. intros i j Hi. by apply H in Hi.
Qed.

Lemma exec_discipline schedule : forall s s',
  redis.lock_discipline s ->
  redis.exec lib policy s schedule = Some s' ->
  redis.lock_discipline s'.
Proof.
  induction schedule as [|a rest IH]; intros s s' Hd H; simpl in H.
  - by inversion H; subst.
  - destruct (redis.step lib policy s a) as [s1|] eqn:Hs; [|discriminate].
    apply (IH s1); [|done]. by eapply step_discipline.
Qed.

(** *** One construction while the probes succeed *)

Lemma constructions_ping t h r :
  redis.constructions (t ++ [redis.EvPing h r]) = redis.constructions t.
Proof.
  unfold redis.constructions. rewrite List.filter_app, length_app.
  simpl. lia.
Qed.

Lemma shared_update u s i p ws :
  redis.shared u s -> redis.ok_pc p ->
  redis.shared u
    (redis.System (redis.globals s) (redis.locked s) ws
       (<[i:=p]> (redis.tasks s))).
Proof.
  intros (He & Hc & Hn & Hk & Hi & Ht) Hp.
  repeat split; try assumption.
  intros j q Hj. simpl in Hj.
  apply insert_lookup_cases in Hj as [(_ & ->) | (_ & Hj)]; [done|].
  by apply (Ht j).
Qed.

Lemma enter_shared u s i budget :
  redis.shared u s -> redis._initialized (redis.globals s) = true ->
  redis.shared u (redis.enter lib policy i budget s).
Proof.
  intros (He & Hc & Hn & Hk & Hi & Ht) Hinit.
  unfold redis.enter. rewrite (enter_initialized lib _ Hinit), Hc.
  repeat split; try assumption; [by right|].
  intros j q Hj. simpl in Hj.
  apply insert_lookup_cases in Hj as [(_ & ->) | (_ & Hj)]; [done|].
  by apply (Ht j).
Qed.

Lemma attempt_shared u s i budget :
  redis.shared u s ->
  redis.shared u (redis.attempt lib policy i budget s).
Proof.
  intros Hs. unfold redis.attempt.
  destruct (negb (redis.locked s) && bool_decide (redis.waiters s = []))
    eqn:E.
  - apply andb_true_iff in E as (E & _). apply negb_true_iff in E.
    apply enter_shared; [done|].
    destruct Hs as (_ & _ & _ & _ & [Hi | Hl] & _); congruence.
  - by apply shared_update.
Qed.

Lemma step_shared u s a s' :
  redis.shared u s ->
  (forall i r, a = redis.Pong i r -> r = None) ->
  redis.step lib policy s a = Some s' ->
  redis.shared u s'.
Proof.
  intros Hs Hpong H. destruct a as [i | i | i r | i]; simpl in H.
  - destruct (redis.tasks s !! i) as [[]|]; try discriminate.
    destruct (redis.needs_init (redis.globals s)); inversion H; subst.
    + by apply attempt_shared.
    + apply shared_update; [done|]. by destruct Hs as (_ & Hc & _).
  - destruct (redis.tasks s !! i) as [[]|]; try discriminate.
    destruct (redis.waiters s) as [|j rest]; try discriminate.
    destruct (redis.locked s) eqn:Hl; try discriminate.
    destruct (bool_decide (i = j)); inversion H; subst.
    destruct Hs as (He & Hc & Hn & Hk & Hi & Ht).
    assert (Hinit : redis._initialized (redis.globals s) = true).
    { destruct Hi; congruence. }
    apply enter_shared; [|done]. repeat split; try assumption. by left.
  - destruct (redis.tasks s !! i) as [[]|] eqn:Hi; try discriminate.
    rewrite (Hpong i r eq_refl) in H. inversion H; subst. clear H.
    destruct Hs as (He & Hc & Hn & Hk & _ & Ht).
    simpl. repeat split; simpl; try assumption.
    + by rewrite constructions_ping.
    + by left.
    + intros j q Hj.
      apply insert_lookup_cases in Hj as [(_ & ->) | (_ & Hj)]; [done|].
      by apply (Ht j).
  - destruct (redis.tasks s !! i) as [[]|] eqn:Hi; try discriminate.
    destruct Hs as (_ & _ & _ & _ & _ & Ht). by apply Ht in Hi.
Qed.

Lemma step_boot u n a s' :
  redis.url_configured lib (redis.start (Some u)) u ->
  redis.step lib policy (redis.boot (Some u) n) a = Some s' ->
  redis.shared u s'.
Proof.
  intros Hu H.
  assert (Hidle : forall i p,
    redis.tasks (redis.boot (Some u) n) !! i = Some p -> p = redis.Idle).
  { intros i p Hi. simpl in Hi. by apply lookup_replicate_1 in Hi as (-> & _). }
  destruct a as [i | i | i r | i]; simpl in H.
  - destruct (replicate n redis.Idle !! i) as [[]|] eqn:Hi; try discriminate.
    inversion H; subst. clear H.
    unfold redis.attempt, redis.enter. simpl.
    rewrite (enter_not_initialized lib _ _ Hu eq_refl). simpl.
    repeat split; [by right|].
    intros j q Hj.
    apply insert_lookup_cases in Hj as [(_ & ->) | (_ & Hj)]; [done|].
    by rewrite (Hidle j q Hj).
  - destruct (replicate n redis.Idle !! i) as [p|] eqn:Hi; [|discriminate].
    rewrite (Hidle i p Hi) in H. discriminate.
  - destruct (replicate n redis.Idle !! i) as [p|] eqn:Hi; [|discriminate].
    rewrite (Hidle i p Hi) in H. discriminate.
  - destruct (replicate n redis.Idle !! i) as [p|] eqn:Hi; [|discriminate].
    rewrite (Hidle i p Hi) in H. discriminate.
Qed.

Lemma exec_settled u n schedule : forall s s',
  redis.url_configured lib (redis.start (Some u)) u ->
  redis.all_pongs_succeed schedule ->
  redis.settled u n s ->
  redis.exec lib policy s schedule = Some s' ->
  redis.settled u n s'.
Proof.
  induction schedule as [|a rest IH]; intros s s' Hu Hp Hs H; simpl in H.
  - by inversion H; subst.
  - destruct (redis.step lib policy s a) as [s1|] eqn:Hstep; [|discriminate].
    apply (IH s1); try done.
    + intros i r Hin. apply (Hp i r). by right.
    + right. destruct Hs as [-> | Hs].
      * by eapply step_boot.
      * eapply step_shared; [done| |done].
        intros i r ->. apply (Hp i r). by left.
Qed.

(** *** At most one probe per caller while the probes succeed *)

Lemma done_count_insert (l : list redis.pc) : forall i q p,
  l !! i = Some q -> redis.finished q = false ->
  redis.done_count (<[i:=p]> l)
  = redis.done_count l + (if redis.finished p then 1 else 0).
Proof.
  unfold redis.done_count.
  induction l as [|x l IH]; intros [|i] q p Hq Hf; simpl in *;
    try discriminate.
  - inversion Hq; subst x. rewrite Hf.
    destruct (redis.finished p); simpl; lia.
  - destruct (redis.finished x); simpl; rewrite (IH i q p Hq Hf); lia.
Qed.

Lemma done_count_le (l : list redis.pc) : redis.done_count l <= length l.
Proof.
  unfold redis.done_count.
  induction l as [|x l IH]; simpl; [lia|].
  destruct (redis.finished x); simpl; lia.
Qed.

Lemma probes_other t ev :
  redis.is_ping ev = false -> redis.probes (t ++ [ev]) = redis.probes t.
Proof.
  intros H. unfold redis.probes. rewrite List.filter_app, length_app.
  simpl. rewrite H. simpl. lia.
Qed.

Lemma probes_ping t h r :
  redis.probes (t ++ [redis.EvPing h r]) = S (redis.probes t).
Proof.
  unfold redis.probes. rewrite List.filter_app, length_app. simpl. lia.
Qed.

Lemma initialize_async_enter_probes w r w' :
  redis.initialize_async_enter lib w = (r, w') ->
  redis.probes (redis.trace w') = redis.probes (redis.trace w).
Proof.
  unfold redis.initialize_async_enter, redis.initialize, redis.from_url,
         redis.bind, redis.read, redis.ret, redis.raise.
  destruct (redis._initialized w); simpl.
  - intros H. by inversion H.
  - destruct (redis.environ_REDIS_URL w) as [[|a u]|]; simpl;
      try (intros H; by inversion H).
    destruct (redis.url_wellformed lib (String a u)); simpl;
      intros H; inversion H; subst; simpl; [|done].
    by apply probes_other.
Qed.

(** Entering the guarded section changes one task and sends no probe
    before the task suspends. *)
Lemma enter_footprint s i budget :
  redis.probes (redis.trace (redis.globals (redis.enter lib policy i budget s)))
  = redis.probes (redis.trace (redis.globals s))
  /\ exists p, redis.tasks (redis.enter lib policy i budget s)
               = <[i:=p]> (redis.tasks s).
Proof.
  unfold redis.enter.
  destruct (redis.initialize_async_enter lib (redis.globals s))
    as [[[]|e] g] eqn:He;
    apply initialize_async_enter_probes in He.
  - destruct (redis.client g) as [h|] eqn:Hc.
    + simpl. eauto.
    + unfold redis.ping. rewrite Hc. simpl. eauto.
  - simpl. eauto.
Qed.

Lemma attempt_footprint s i budget :
  redis.probes
    (redis.trace (redis.globals (redis.attempt lib policy i budget s)))
  = redis.probes (redis.trace (redis.globals s))
  /\ exists p, redis.tasks (redis.attempt lib policy i budget s)
               = <[i:=p]> (redis.tasks s).
Proof.
  unfold redis.attempt.
  destruct (negb (redis.locked s) && bool_decide (redis.waiters s = [])).
  - apply enter_footprint.
  - simpl. eauto.
Qed.

Lemma step_probes s a s' :
  (forall i r, a = redis.Pong i r -> r = None) ->
  redis.step lib policy s a = Some s' ->
  redis.probes (redis.trace (redis.globals s)) <= redis.done_count (redis.tasks s) ->
  redis.probes (redis.trace (redis.globals s'))
  <= redis.done_count (redis.tasks s').
Proof.
  intros Hpong H Hle. destruct a as [i | i | i r | i]; simpl in H.
  - destruct (redis.tasks s !! i) as [[]|] eqn:Hi; try discriminate.
    destruct (redis.needs_init (redis.globals s)); inversion H; subst.
    + destruct (attempt_footprint s i (redis.retries policy))
        as (-> & p & ->).
      rewrite (done_count_insert _ _ _ p Hi eq_refl). lia.
    + simpl. rewrite (done_count_insert _ _ _ _ Hi eq_refl). simpl. lia.
  - destruct (redis.tasks s !! i) as [[]|] eqn:Hi; try discriminate.
    destruct (redis.waiters s) as [|j rest]; try discriminate.
    destruct (redis.locked s) eqn:Hl; try discriminate.
    destruct (bool_decide (i = j)); inversion H; subst.
    match goal with |- context [redis.enter _ _ _ ?b ?s0] =>
      destruct (enter_footprint s0 i b) as (-> & p & ->) end.
    simpl. rewrite (done_count_insert _ _ _ p Hi eq_refl). lia.
  - destruct (redis.tasks s !! i) as [[]|] eqn:Hi; try discriminate.
    rewrite (Hpong i r eq_refl) in H. inversion H; subst. clear H.
    simpl. rewrite probes_ping.
    rewrite (done_count_insert _ _ _ _ Hi eq_refl). simpl. lia.
  - destruct (redis.tasks s !! i) as [[]|] eqn:Hi; try discriminate.
    inversion H; subst.
    destruct (attempt_footprint s i budget) as (-> & p & ->).
    rewrite (done_count_insert _ _ _ p Hi eq_refl). lia.
Qed.

Lemma step_length s a s' :
  redis.step lib policy s a = Some s' ->
  length (redis.tasks s') = length (redis.tasks s).
Proof.
  intros H. destruct a as [i | i | i r | i]; simpl in H.
  - destruct (redis.tasks s !! i) as [[]|]; try discriminate.
    destruct (redis.needs_init (redis.globals s)); inversion H; subst.
    + destruct (attempt_footprint s i (redis.retries policy))
        as (_ & p & ->).
      apply length_insert.
    + apply length_insert.
  - destruct (redis.tasks s !! i) as [[]|]; try discriminate.
    destruct (redis.waiters s) as [|j rest]; try discriminate.
    destruct (redis.locked s); try discriminate.
    destruct (bool_decide (i = j)); inversion H; subst.
    match goal with |- context [redis.enter _ _ _ ?b ?s0] =>
      destruct (enter_footprint s0 i b) as (_ & p & ->) end.
    apply length_insert.
  - destruct (redis.tasks s !! i) as [[]|]; try discriminate.
    inversion H; subst. unfold redis.leave.
    destruct (redis.initialize_async_resume _ _). apply length_insert.
  - destruct (redis.tasks s !! i) as [[]|]; try discriminate.
    inversion H; subst.
    destruct (attempt_footprint s i budget) as (_ & p & ->).
    apply length_insert.
Qed.

Lemma exec_probes schedule : forall s s',
  redis.all_pongs_succeed schedule ->
  redis.exec lib policy s schedule = Some s' ->
  redis.probes (redis.trace (redis.globals s)) <= redis.done_count (redis.tasks s) ->
  redis.probes (redis.trace (redis.globals s'))
  <= redis.done_count (redis.tasks s')
  /\ length (redis.tasks s') = length (redis.tasks s).
Proof.
  induction schedule as [|a rest IH]; intros s s' Hp H Hle; simpl in H.
  - by inversion H; subst.
  - destruct (redis.step lib policy s a) as [s1|] eqn:Hstep; [|discriminate].
    destruct (IH s1 s') as (Hle' & Hlen); try done.
    + intros i r Hin. apply (Hp i r). by right.
    + eapply step_probes; [|exact Hstep|exact Hle].
      intros i r ->. apply (Hp i r). by left.
    + split; [done|]. rewrite Hlen. by eapply step_length.
Qed.

(** C1, as amended: for [n] concurrent first calls of [get_client] and
    every interleaving of them, at most one call at a time is inside
    the section guarded by [_init_lock].  With a usable connection URL and
    while every probe succeeds, the client is built at most once, and
    exactly once as soon as one call has begun; every call that has
    finished returned that one handle, and none raised; and no more
    probes have been answered than calls have finished, so at most [n]
    in all. *)
Theorem concurrent_first_calls_share_one_client
    (url : option string) (n : nat) (schedule : list redis.action)
    (s : redis.system) :
  redis.exec lib policy (redis.boot url n) schedule = Some s ->
  (forall i j, redis.in_critical_section s i ->
               redis.in_critical_section s j -> i = j)
  /\ (forall u, redis.url_configured lib (redis.start url) u ->
        redis.all_pongs_succeed schedule ->
        redis.constructions (redis.trace (redis.globals s)) <= 1
        /\ (forall i p, redis.tasks s !! i = Some p -> p <> redis.Idle ->
              redis.constructions (redis.trace (redis.globals s)) = 1)
        /\ (forall i p, redis.tasks s !! i = Some p ->
              redis.finished p = true -> p = redis.Returned (Some 0))
        /\ redis.probes (redis.trace (redis.globals s))
           <= redis.done_count (redis.tasks s)
        /\ redis.done_count (redis.tasks s) <= n).
Proof.
  intros H. split.
  - apply (exec_discipline schedule _ _ (boot_discipline url n) H).
  - intros u Hu Hp.
    assert (Hurl : url = Some u) by apply Hu. subst url.
    assert (Hs : redis.settled u n s).
    { eapply exec_settled; [exact Hu | exact Hp | by left | exact H]. }
    assert (Hpr : redis.probes (redis.trace (redis.globals s))
                  <= redis.done_count (redis.tasks s)
                  /\ redis.done_count (redis.tasks s) <= n).
    { destruct (exec_probes schedule _ _ Hp H) as (Hle & Hlen).
      - simpl. unfold redis.probes. simpl. lia.
      - split; [exact Hle|].
        pose proof (done_count_le (redis.tasks s)) as Hd.
        rewrite Hlen in Hd. simpl in Hd. by rewrite length_replicate in Hd. }
    destruct Hs as [-> | (He & Hc & Hn & Hk & Hi & Ht)].
    + split; [simpl; unfold redis.constructions; simpl; lia|].
      split; [|split; [|exact Hpr]]; intros i p Hi; simpl in Hi;
        apply lookup_replicate_1 in Hi as (-> & _); [done | discriminate].
    + split; [lia|]. split; [done|]. split; [|exact Hpr].
      intros i p Hi' Hf. specialize (Ht i p Hi').
      destruct p; simpl in *; try discriminate; try done. by subst.
Qed.

End RedisConcurrent.

(* witness of C1 *)
Lemma concurrent_first_calls_share_one_client_witness :
  exists s,
    redis.exec scenario.healthy scenario.three_attempts
      (redis.boot (Some scenario.url) 3)
      [redis.Call 2; redis.Call 0; redis.Pong 2 None; redis.Call 1;
       redis.Wake 0; redis.Pong 0 None] = Some s
    /\ redis.constructions (redis.trace (redis.globals s)) = 1
    /\ redis.tasks s !! 1 = Some (redis.Returned (Some 0)).
Proof.
  eexists. split; [reflexivity|].
  match goal with |- context [redis.globals ?s] =>
    destruct (concurrent_first_calls_share_one_client scenario.healthy
                scenario.three_attempts (Some scenario.url) 3
                [redis.Call 2; redis.Call 0; redis.Pong 2 None; redis.Call 1;
                 redis.Wake 0; redis.Pong 0 None] s eq_refl)
      as (_ & H)
  end.
  destruct (H scenario.url) as (_ & Hone & Hsame & _).
  - apply scenario_url_configured; reflexivity.
  - intros i r Hin. simpl in Hin.
    repeat (destruct Hin as [Hin | Hin]; [by inversion Hin|]). done.
  - split.
    + apply (Hone 2 (redis.Returned (Some 0))); [reflexivity | discriminate].
    + reflexivity.
Defined.

(** C1 as stated fails.  Two callers that both find the module not ready
    each send a probe, so two probes run; and when the first caller's
    probe fails, the second caller builds a second client, and the two
    callers end with different outcomes. *)
Lemma concurrent_callers_repeat_the_probe :
  (exists s,
     redis.exec scenario.healthy scenario.three_attempts
       (redis.boot (Some scenario.url) 2)
       [redis.Call 0; redis.Call 1; redis.Pong 0 None; redis.Wake 1;
        redis.Pong 1 None] = Some s
     /\ redis.all_finished s
     /\ ~ redis.single_sequence s)
  /\ (exists s,
        redis.exec scenario.healthy scenario.single_attempt
          (redis.boot (Some scenario.url) 2)
          [redis.Call 0; redis.Call 1; redis.Pong 0 (Some scenario.refused);
           redis.Wake 1; redis.Pong 1 None] = Some s
        /\ redis.all_finished s
        /\ ~ redis.single_sequence s
        /\ ~ redis.same_outcome s).
Proof.
  split.
  - eexists. split; [reflexivity|]. split.
    + intros [|[|i]] p Hi; simpl in Hi; inversion Hi; reflexivity.
    + intros (_ & Hp). vm_compute in Hp. discriminate.
  - eexists. split; [reflexivity|]. split; [|split].
    + intros [|[|i]] p Hi; simpl in Hi; inversion Hi; reflexivity.
    + intros (Hc & _). vm_compute in Hc. discriminate.
    + intros Hsame.
      specialize (Hsame 0 1 _ _ eq_refl eq_refl). discriminate.
Qed.

(** * Further properties of the Redis service module *)

Section RedisReady.

Variable lib : redis.RedisLib.
Variable policy : redis.RetryPolicy.

Lemma initialize_async_returns w a w' :
  redis.initialize_async lib w = (Ok a, w') ->
  exists h, a = Some h /\ redis_ext.ready w' h.
Proof.
  unfold redis.initialize_async, redis.bind.
  destruct (redis.initialize_async_enter lib w) as [[[]|e] w1];
    [|discriminate].
  destruct (ping_cases lib w1) as [(Hc & Hp) | (h & Hc & Hp)]; rewrite Hp.
  - discriminate.
  - destruct (redis.ping_reply lib (redis.trace w1) h); simpl;
      [discriminate|].
    intros H. inversion H; subst. exists h. repeat split; assumption.
Qed.

Lemma retry_loop_returns n : forall w a w',
  redis.retry_loop policy n (redis.initialize_async lib) w = (Ok a, w') ->
  exists h, a = Some h /\ redis_ext.ready w' h.
Proof.
  induction n as [|n IH]; intros w a w' H;
    rewrite retry_loop_unfold in H;
    destruct (redis.initialize_async lib w) as [[a1|e1] w1] eqn:Ha;
    try discriminate.
  - inversion H; subst. by eapply initialize_async_returns.
  - inversion H; subst. by eapply initialize_async_returns.
  - destruct (redis.retryable policy e1); [|discriminate]. by eapply IH.
Qed.

(** Whatever the state it was called in, when [get_client] returns, the
    module is ready: what it returns is a handle, not [None], it is the
    handle stored in [client], and [_initialized] is true. *)
Theorem get_client_returns_ready (w : redis.world)
    (c : option handle) (w' : redis.world) :
  redis.get_client lib policy w = (Ok c, w') ->
  exists h, c = Some h /\ redis_ext.ready w' h.
Proof.
  intros H. rewrite get_client_unfold in H.
  destruct (redis.needs_init w) eqn:Hn.
  - unfold redis.retry in H.
    destruct (redis.retry_loop policy _ _ w) as [[a|e] w1] eqn:Hr;
      inversion H; subst.
    destruct (retry_loop_returns _ _ _ _ Hr) as (h & _ & Hc & Hi).
    exists h. repeat split; assumption.
  - inversion H; subst. unfold redis.needs_init in Hn.
    destruct (redis.client w') as [h|] eqn:Hc; [|discriminate].
    exists h. split; [reflexivity|]. split; [exact Hc|].
    simpl in Hn. by destruct (redis._initialized w').
Qed.

Lemma get_client_ready w h :
  redis_ext.ready w h -> redis.get_client lib policy w = (Ok (Some h), w).
Proof.
  intros (Hc & Hi). rewrite get_client_unfold.
  unfold redis.needs_init. rewrite Hc, Hi. reflexivity.
Qed.

Lemma run_ready op w h :
  redis_ext.ready w h ->
  exists r,
    snd (redis.run lib policy op w)
    = redis.emit (redis.EvCommand h (redis.command_of op) r) w
    /\ r = redis.reply lib (redis.trace w) h (redis.command_of op).
Proof.
  intros Hr.
  destruct (run_delegates lib policy op _ _ _ (get_client_ready _ _ Hr))
    as (Hsnd & _ & _).
  rewrite Hsnd, invoke_handle. simpl. eauto.
Qed.

(** Once the module is ready it stays ready under the eight operations,
    whether their commands succeed or raise: a caller running any list of
    them sends exactly one command per operation, in order and all to the
    same handle, and nothing else happens: no client is built, none is
    probed and none is closed. *)
Theorem ready_is_stable (ops : list redis.operation) :
  forall (w : redis.world) (h : handle),
  redis_ext.ready w h ->
  exists evs,
    redis.trace (snd (redis_ext.run_all lib policy ops w))
    = (redis.trace w ++ evs)%list
    /\ Forall2 (redis_ext.sent_to h) ops evs
    /\ redis_ext.ready (snd (redis_ext.run_all lib policy ops w)) h
    /\ redis.next_handle (snd (redis_ext.run_all lib policy ops w))
       = redis.next_handle w
    /\ length (fst (redis_ext.run_all lib policy ops w)) = length ops.
Proof.
  induction ops as [|op rest IH]; intros w h Hr.
  - exists []. simpl. rewrite app_nil_r. repeat split; try apply Hr.
    constructor.
  - simpl.
    destruct (run_ready op w h Hr) as (r & Hsnd & _).
    destruct (redis.run lib policy op w) as [r1 w1]. simpl in Hsnd. subst w1.
    assert (Hr1 : redis_ext.ready
                    (redis.emit (redis.EvCommand h (redis.command_of op) r) w)
                    h) by apply Hr.
    destruct (IH _ h Hr1) as (evs & Ht & Hf & Hrd & Hn & Hl).
    destruct (redis_ext.run_all lib policy rest _) as [rs w2].
    simpl in *.
    exists (redis.EvCommand h (redis.command_of op) r :: evs).
    repeat split; try apply Hrd.
    + rewrite Ht, <- app_assoc. reflexivity.
    + constructor; [by exists r | exact Hf].
    + exact Hn.
    + by rewrite Hl.
Qed.

End RedisReady.

(* witness of get_client_returns_ready *)
Lemma get_client_returns_ready_witness :
  exists h,
    Some 1 = Some h
    /\ redis_ext.ready
         (snd (redis.get_client scenario.flaky scenario.three_attempts
                 scenario.fresh)) h.
Proof.
  apply (get_client_returns_ready scenario.flaky scenario.three_attempts
           scenario.fresh (Some 1)).
  reflexivity.
Defined.

(* witness of ready_is_stable *)
Lemma ready_is_stable_witness :
  exists evs,
    redis.trace
      (snd (redis_ext.run_all scenario.unreachable scenario.three_attempts
              [redis.OpGet "k" PyNone; redis.OpDelete "k"] scenario.ready))
    = (redis.trace scenario.ready ++ evs)%list
    /\ Forall2 (redis_ext.sent_to 0)
         [redis.OpGet "k" PyNone; redis.OpDelete "k"] evs.
Proof.
  destruct (ready_is_stable scenario.unreachable scenario.three_attempts
              [redis.OpGet "k" PyNone; redis.OpDelete "k"]
              scenario.ready 0) as (evs & Ht & Hf & _).
  - split; reflexivity.
  - exists evs. split; assumption.
Defined.

Section RedisLifecycle.

Variable lib : redis.RedisLib.
Variable policy : redis.RetryPolicy.

Lemma closes_other t ev :
  redis_ext.is_aclose ev = false ->
  redis_ext.closes (t ++ [ev]) = redis_ext.closes t.
Proof.
  intros H. unfold redis_ext.closes. rewrite List.filter_app, length_app.
  simpl. rewrite H. simpl. lia.
Qed.

Lemma initialize_closes w r w' :
  redis.initialize lib w = (r, w') ->
  redis_ext.closes (redis.trace w') = redis_ext.closes (redis.trace w).
Proof.
  unfold redis.initialize, redis.from_url, redis.bind, redis.read,
         redis.raise.
  destruct (redis.environ_REDIS_URL w) as [[|a u]|]; simpl;
    try (intros H; by inversion H).
  destruct (redis.url_wellformed lib (String a u));
    intros H; inversion H; subst; simpl; [|done].
  by apply closes_other.
Qed.

Lemma initialize_async_closes w r w' :
  redis.initialize_async lib w = (r, w') ->
  redis_ext.closes (redis.trace w') = redis_ext.closes (redis.trace w).
Proof.
  unfold redis.initialize_async, redis.initialize_async_enter, redis.bind,
         redis.read, redis.ret.
  destruct (redis._initialized w); simpl.
  - destruct (ping_cases lib w) as [(Hc & Hp) | (h & Hc & Hp)]; rewrite Hp.
    + simpl. intros H. by inversion H.
    + destruct (redis.ping_reply lib (redis.trace w) h); simpl;
        intros H; inversion H; subst; simpl; by apply closes_other.
  - destruct (redis.initialize lib w) as [[h0|e0] w1] eqn:Hi;
      apply initialize_closes in Hi.
    + destruct (ping_cases lib w1) as [(Hc & Hp) | (h & Hc & Hp)];
        rewrite Hp.
      * simpl. intros H. inversion H; subst. simpl. exact Hi.
      * destruct (redis.ping_reply lib (redis.trace w1) h); simpl;
          intros H; inversion H; subst; simpl;
          rewrite closes_other; done.
    + intros H. inversion H; subst. exact Hi.
Qed.

Lemma retry_loop_closes n : forall w r w',
  redis.retry_loop policy n (redis.initialize_async lib) w = (r, w') ->
  redis_ext.closes (redis.trace w') = redis_ext.closes (redis.trace w).
Proof.
  induction n as [|n IH]; intros w r w' H;
    rewrite retry_loop_unfold in H;
    destruct (redis.initialize_async lib w) as [[a|e1] w1] eqn:Ha;
    apply initialize_async_closes in Ha.
  - inversion H; subst. exact Ha.
  - inversion H; subst. exact Ha.
  - inversion H; subst. exact Ha.
  - destruct (redis.retryable policy e1).
    + rewrite (IH _ _ _ H). exact Ha.
    + inversion H; subst. exact Ha.
Qed.

Lemma get_client_closes w r w' :
  redis.get_client lib policy w = (r, w') ->
  redis_ext.closes (redis.trace w') = redis_ext.closes (redis.trace w).
Proof.
  intros H. rewrite get_client_unfold in H.
  destruct (redis.needs_init w); [|by inversion H].
  unfold redis.retry in H.
  destruct (redis.retry_loop policy _ _ w) as [[a|e] w1] eqn:Hr;
    apply retry_loop_closes in Hr; inversion H; subst; exact Hr.
Qed.

(** Only [close] closes a handle.  [get_client] and the eight
    operations never call [aclose], whether they succeed or raise: the
    handle that a failed ping discards, and the one that a new
    construction replaces, are dropped without being closed. *)
Theorem only_close_closes (w : redis.world) :
  redis_ext.closes (redis.trace (snd (redis.get_client lib policy w)))
  = redis_ext.closes (redis.trace w)
  /\ forall op,
       redis_ext.closes (redis.trace (snd (redis.run lib policy op w)))
       = redis_ext.closes (redis.trace w).
Proof.
  split.
  - destruct (redis.get_client lib policy w) as [r w'] eqn:H.
    by apply get_client_closes in H.
  - intros op.
    destruct (redis.get_client lib policy w) as [[c|e] w1] eqn:H.
    + destruct (run_delegates lib policy op _ _ _ H) as (Hsnd & _ & _).
      rewrite Hsnd. apply get_client_closes in H.
      destruct c as [h|]; simpl; [|exact H].
      rewrite closes_other; done.
    + rewrite (run_get_client_raises lib policy op _ _ _ H). simpl.
      by apply get_client_closes in H.
Qed.

Lemma set_initialized_cleared w :
  redis._initialized w = false -> redis.set_initialized false w = w.
Proof. destruct w. simpl. by intros ->. Qed.

(** A second [close] after one that returned does nothing at all: it
    returns, the module is unchanged and no call reaches the library.  A
    [close] that raised has only recorded the failed [aclose]: the handle
    and the flag are as before, so it can be tried again. *)
Theorem close_twice (w : redis.world) :
  (forall w1, redis.close lib w = (Ok tt, w1) ->
     redis.close lib w1 = (Ok tt, w1))
  /\ (forall e w1, redis.close lib w = (Raise e, w1) ->
        exists h, redis.client w = Some h
          /\ w1 = redis.emit (redis.EvAclose h (Some e)) w).
Proof.
  split.
  - intros w1 H. destruct (close_returns_cleared lib _ _ H) as (Hc & Hi).
    rewrite (close_without_handle lib _ Hc).
    by rewrite (set_initialized_cleared _ Hi).
  - intros e w1 H. destruct (redis.client w) as [h|] eqn:E.
    + rewrite (close_with_handle lib _ _ E) in H.
      destruct (redis.aclose_reply lib (redis.trace w) h) as [e'|];
        inversion H; subst. eauto.
    + rewrite (close_without_handle lib _ E) in H. discriminate.
Qed.

(** [initialize] called on a ready module swaps the client for a new
    one and leaves [_initialized] true: the next [get_client] hands out
    the new handle as it is, without a probe, and the old handle is not
    closed. *)
Theorem initialize_on_ready_skips_the_probe
    (w : redis.world) (u : string) (h : handle) :
  redis.url_configured lib w u ->
  redis_ext.ready w h ->
  exists w1,
    redis.initialize lib w = (Ok (redis.next_handle w), w1)
    /\ redis.get_client lib policy w1 = (Ok (Some (redis.next_handle w)), w1)
    /\ redis.trace w1
       = (redis.trace w ++ [redis.EvFromUrl u (redis.next_handle w)])%list
    /\ (redis.consistent w -> redis.next_handle w <> h).
Proof.
  intros Hu (Hc & Hi).
  exists (redis.fresh_client u w). split; [by apply initialize_configured|].
  split; [|split; [reflexivity|]].
  - apply get_client_ready. split; [reflexivity | exact Hi].
  - intros Hcons Heq. apply Hcons in Hc. lia.
Qed.

End RedisLifecycle.

(* witness of close_twice *)
Lemma close_twice_witness :
  redis.close scenario.healthy
    (snd (redis.close scenario.healthy scenario.ready))
  = (Ok tt, snd (redis.close scenario.healthy scenario.ready))
  /\ exists h, redis.client scenario.ready = Some h
       /\ snd (redis.close scenario.stuck_close scenario.ready)
          = redis.emit
              (redis.EvAclose h
                 (Some (RedisError "Timed out closing connection")))
              scenario.ready.
Proof.
  split.
  - destruct (close_twice scenario.healthy scenario.ready) as (H & _).
    apply H. reflexivity.
  - destruct (close_twice scenario.stuck_close scenario.ready) as (_ & H).
    apply (H (RedisError "Timed out closing connection")). reflexivity.
Defined.

(* witness of initialize_on_ready_skips_the_probe *)
Lemma initialize_on_ready_skips_the_probe_witness :
  exists w1,
    redis.initialize scenario.healthy scenario.ready = (Ok 1, w1)
    /\ redis.get_client scenario.healthy scenario.three_attempts w1
       = (Ok (Some 1), w1).
Proof.
  destruct (initialize_on_ready_skips_the_probe scenario.healthy
              scenario.three_attempts scenario.ready scenario.url 0)
    as (w1 & H1 & H2 & _).
  - apply scenario_url_configured; reflexivity.
  - split; reflexivity.
  - exists w1. split; assumption.
Defined.

(** * Progress of concurrent first calls *)

Section RedisProgress.

Variable lib : redis.RedisLib.
Variable policy : redis.RetryPolicy.

Lemma after_failure_shape budget e :
  redis_ext.queued (redis.after_failure policy budget e) = false
  /\ redis_ext.weight (redis.retries policy) (redis.after_failure policy budget e) <= 3 * budget.
Proof.
  unfold redis.after_failure. destruct budget as [|b]; simpl; [auto|].
  destruct (redis.retryable policy e); simpl; split; auto; lia.
Qed.

Lemma leave_shape s i budget r :
  exists g p,
    redis.leave policy i budget r s
    = redis.System g false (redis.waiters s) (<[i:=p]> (redis.tasks s))
    /\ redis_ext.queued p = false /\ redis.quiet p
    /\ redis_ext.weight (redis.retries policy) p <= 3 * budget.
Proof.
  unfold redis.leave. destruct r as [[c|e] g]; eexists g, _;
    (split; [reflexivity|]).
  - simpl. repeat split; [discriminate | lia].
  - destruct (after_failure_shape budget e) as (Hq & Hw).
    repeat split; [exact Hq | apply after_failure_quiet | exact Hw].
Qed.

(** What [enter] leaves of a system: one task changed, which either
    holds the lock and waits for the ping, or is out again. *)
Lemma enter_shape s i budget :
  exists g lk p,
    redis.enter lib policy i budget s
    = redis.System g lk (redis.waiters s) (<[i:=p]> (redis.tasks s))
    /\ redis_ext.queued p = false
    /\ redis_ext.weight (redis.retries policy) p <= 3 * budget + 1
    /\ (lk = true -> exists h, p = redis.Pinging budget h).
Proof.
  unfold redis.enter.
  destruct (redis.initialize_async_enter lib (redis.globals s))
    as [[[]|e] g].
  - destruct (redis.client g) as [h|].
    + exists g, true, (redis.Pinging budget h).
      repeat split; simpl; [lia | eauto].
    + destruct (redis.ping lib g) as [r g1].
      destruct (leave_shape s i budget (redis.initialize_async_resume r g1))
        as (g' & p & -> & Hq & _ & Hw).
      exists g', false, p. repeat split; [done | lia | discriminate].
  - destruct (leave_shape s i budget (Raise e, g))
      as (g' & p & -> & Hq & _ & Hw).
    exists g', false, p. repeat split; [done | lia | discriminate].
Qed.

Lemma attempt_shape s i budget :
  (redis.locked s = false /\ redis.waiters s = []
   /\ redis.attempt lib policy i budget s = redis.enter lib policy i budget s)
  \/ redis.attempt lib policy i budget s
     = redis.System (redis.globals s) (redis.locked s)
         (redis.waiters s ++ [i])
         (<[i:=redis.Queued budget]> (redis.tasks s)).
Proof.
  unfold redis.attempt.
  destruct (negb (redis.locked s) && bool_decide (redis.waiters s = []))
    eqn:E; [left | by right].
  apply andb_true_iff in E as (E1 & E2).
  apply negb_true_iff in E1. apply bool_decide_eq_true in E2. done.
Qed.

(** *** The queue and the lock stay consistent *)

Lemma queue_update s i q p g lk :
  redis.tasks s !! i = Some q ->
  redis_ext.queued q = false -> redis_ext.queued p = false ->
  redis_ext.queue_discipline s ->
  redis_ext.queue_discipline
    (redis.System g lk (redis.waiters s) (<[i:=p]> (redis.tasks s))).
Proof.
  intros Hi Hq Hp (Hnd & Hw). split; [exact Hnd|]. simpl.
  intros j. rewrite Hw. split; intros (b & Hj); exists b.
  - destruct (decide (j = i)) as [->|Hne].
    + rewrite Hi in Hj. inversion Hj; subst. discriminate.
    + by rewrite list_lookup_insert_ne.
  - apply insert_lookup_cases in Hj as [(_ & Hj) | (_ & Hj)]; [|done].
    subst p. discriminate.
Qed.

Lemma queue_push s i q budget g lk :
  redis.tasks s !! i = Some q ->
  redis_ext.queued q = false ->
  redis_ext.queue_discipline s ->
  redis_ext.queue_discipline
    (redis.System g lk (redis.waiters s ++ [i])
       (<[i:=redis.Queued budget]> (redis.tasks s))).
Proof.
  intros Hi Hq (Hnd & Hw). split; simpl.
  - apply NoDup_app. split; [exact Hnd|]. split; [|apply NoDup_singleton].
    intros j Hj Hji. apply list_elem_of_singleton in Hji. subst j.
    apply Hw in Hj as (b & Hj). rewrite Hi in Hj. inversion Hj; subst.
    discriminate.
  - intros j. rewrite elem_of_app, list_elem_of_singleton, Hw.
    split.
    + intros [(b & Hj) | ->].
      * destruct (decide (j = i)) as [->|Hne].
        -- rewrite Hi in Hj. inversion Hj; subst. discriminate.
        -- exists b. by rewrite list_lookup_insert_ne.
      * exists budget. apply list_lookup_insert_eq.
        by eapply lookup_lt_Some.
    + intros (b & Hj).
      apply insert_lookup_cases in Hj as [(-> & _) | (_ & Hj)];
        [by right | left; eauto].
Qed.

Lemma queue_pop s i budget rest p g lk :
  redis.tasks s !! i = Some (redis.Queued budget) ->
  redis.waiters s = i :: rest ->
  redis_ext.queued p = false ->
  redis_ext.queue_discipline s ->
  redis_ext.queue_discipline
    (redis.System g lk rest (<[i:=p]> (redis.tasks s))).
Proof.
  intros Hi Hws Hp (Hnd & Hw). rewrite Hws in Hnd, Hw.
  apply NoDup_cons in Hnd as (Hnotin & Hnd).
  split; [exact Hnd|]. simpl. intros j. split.
  - intros Hj. assert (Hne : j <> i) by (intros ->; done).
    destruct (proj1 (Hw j)) as (b & Hb); [by right|].
    exists b. by rewrite list_lookup_insert_ne.
  - intros (b & Hj).
    apply insert_lookup_cases in Hj as [(_ & Hj) | (Hne & Hj)].
    + subst p. discriminate.
    + assert (Hin : j ∈ i :: rest) by (apply Hw; eauto).
      apply elem_of_cons in Hin as [->|Hin]; done.
Qed.

Lemma holder_kept s i q p g ws :
  redis.tasks s !! i = Some q -> redis.quiet q ->
  redis_ext.lock_held_by_someone s ->
  redis_ext.lock_held_by_someone
    (redis.System g (redis.locked s) ws (<[i:=p]> (redis.tasks s))).
Proof.
  intros Hi Hq Hl Hlk. simpl in Hlk.
  destruct (Hl Hlk) as (k & b & h & Hk). exists k, b, h. simpl.
  rewrite list_lookup_insert_ne; [done|].
  intros ->. rewrite Hi in Hk. inversion Hk. by eapply Hq.
Qed.

Lemma holder_entered s i q budget :
  redis.tasks s !! i = Some q ->
  redis_ext.lock_held_by_someone (redis.enter lib policy i budget s).
Proof.
  intros Hi.
  destruct (enter_shape s i budget) as (g & lk & p & -> & _ & _ & Hp).
  intros Hlk. simpl in Hlk. destruct (Hp Hlk) as (h & ->).
  exists i, budget, h. simpl. apply list_lookup_insert_eq.
  by eapply lookup_lt_Some.
Qed.

Lemma enter_orderly s i q budget :
  redis.tasks s !! i = Some q -> redis_ext.queued q = false ->
  redis_ext.queue_discipline s ->
  redis_ext.orderly (redis.enter lib policy i budget s).
Proof.
  intros Hi Hq Hd. split; [|by eapply holder_entered].
  destruct (enter_shape s i budget) as (g & lk & p & -> & Hp & _ & _).
  by eapply queue_update.
Qed.

Lemma attempt_orderly s i q budget :
  redis.tasks s !! i = Some q ->
  redis_ext.queued q = false -> redis.quiet q ->
  redis_ext.orderly s -> redis_ext.orderly (redis.attempt lib policy i budget s).
Proof.
  intros Hi Hq Hqu (Hd & Hl).
  destruct (attempt_shape s i budget) as [(_ & _ & ->) | ->].
  - by eapply enter_orderly.
  - split; [by eapply queue_push | by eapply holder_kept].
Qed.

Lemma step_orderly s a s' :
  redis_ext.orderly s -> redis.step lib policy s a = Some s' -> redis_ext.orderly s'.
Proof.
  intros (Hd & Hl) H. destruct a as [i | i | i r | i]; simpl in H.
  - destruct (redis.tasks s !! i) as [[]|] eqn:Hi; try discriminate.
    destruct (redis.needs_init (redis.globals s)); inversion H; subst.
    + eapply attempt_orderly; [exact Hi | done | discriminate | done].
    + split; [by eapply queue_update|].
      eapply holder_kept; [exact Hi | discriminate | done].
  - destruct (redis.tasks s !! i) as [[]|] eqn:Hi; try discriminate.
    destruct (redis.waiters s) as [|j rest] eqn:Hws; try discriminate.
    destruct (redis.locked s) eqn:Hlk; try discriminate.
    destruct (bool_decide (i = j)) eqn:Hij; inversion H; subst. clear H.
    apply bool_decide_eq_true in Hij. subst j.
    split; [|by eapply (holder_entered
                          (redis.System (redis.globals s) false rest
                             (redis.tasks s)))].
    destruct (enter_shape
                (redis.System (redis.globals s) false rest (redis.tasks s))
                i budget) as (g & lk & p & -> & Hp & _ & _).
    simpl. by eapply queue_pop.
  - destruct (redis.tasks s !! i) as [[]|] eqn:Hi; try discriminate.
    inversion H; subst. clear H.
    match goal with |- redis_ext.orderly (redis.leave _ _ _ ?r _) =>
      destruct (leave_shape s i budget r) as (g & p & -> & Hp & _ & _) end.
    split; [by eapply queue_update|]. intros Hlk. discriminate.
  - destruct (redis.tasks s !! i) as [[]|] eqn:Hi; try discriminate.
    inversion H; subst.
    eapply attempt_orderly; [exact Hi | done | discriminate | done].
Qed.

Lemma boot_orderly url n : redis_ext.orderly (redis.boot url n).
Proof.
  split.
  - split; [apply NoDup_nil_2|]. simpl. intros j. split.
    + intros Hj. by apply elem_of_nil in Hj.
    + intros (b & Hj). apply lookup_replicate_1 in Hj as (Hj & _).
      discriminate.
  - intros Hlk. discriminate.
Qed.

Lemma exec_orderly schedule : forall s s',
  redis_ext.orderly s -> redis.exec lib policy s schedule = Some s' -> redis_ext.orderly s'.
Proof.
  induction schedule as [|a rest IH]; intros s s' Ho H; simpl in H.
  - by inversion H; subst.
  - destruct (redis.step lib policy s a) as [s1|] eqn:Hs; [|discriminate].
    apply (IH s1); [|done]. by eapply step_orderly.
Qed.

(** No deadlock: in every state that [n] concurrent first calls of
    [get_client] can reach, as long as one call has not finished some
    call can take a step (start, take the lock, hear from its ping, or
    retry); and once all calls have finished, [_init_lock] is free and
    nobody waits for it, also when attempts have raised. *)
Theorem concurrent_calls_never_deadlock
    (url : option string) (n : nat) (schedule : list redis.action)
    (s : redis.system) :
  redis.exec lib policy (redis.boot url n) schedule = Some s ->
  (forall i p, redis.tasks s !! i = Some p -> redis.finished p = false ->
     redis_ext.enabled lib policy s)
  /\ (redis.all_finished s ->
      redis.locked s = false /\ redis.waiters s = []).
Proof.
  intros H.
  destruct (exec_orderly schedule _ _ (boot_orderly url n) H)
    as ((Hnd & Hw) & Hl).
  split.
  - intros i p Hi Hf. unfold redis_ext.enabled.
    assert (Hpong : forall k b h,
      redis.tasks s !! k = Some (redis.Pinging b h) ->
      exists a s', redis.step lib policy s a = Some s').
    { intros k b h Hk. exists (redis.Pong k None). simpl. rewrite Hk. eauto. }
    destruct p as [|b|b h|b|c|e]; try discriminate.
    + exists (redis.Call i). simpl. rewrite Hi.
      destruct (redis.needs_init (redis.globals s)); eauto.
    + destruct (redis.locked s) eqn:Hlk.
      * destruct (Hl Hlk) as (k & b' & h & Hk). by eapply Hpong.
      * assert (Hin : i ∈ redis.waiters s) by (apply Hw; eauto).
        destruct (redis.waiters s) as [|j rest] eqn:Hws;
          [by apply elem_of_nil in Hin|].
        destruct (proj1 (Hw j)) as (bj & Hj); [by left|].
        exists (redis.Wake j). simpl. rewrite Hj, Hws, Hlk.
        rewrite bool_decide_eq_true_2; eauto.
    + by eapply Hpong.
    + exists (redis.Resume i). simpl. rewrite Hi. eauto.
  - intros Hall. split.
    + destruct (redis.locked s) eqn:Hlk; [|done].
      destruct (Hl Hlk) as (k & b & h & Hk).
      apply Hall in Hk. discriminate.
    + apply elem_of_nil_inv. intros j Hj.
      apply Hw in Hj as (b & Hj). apply Hall in Hj. discriminate.
Qed.

(** *** Every call comes to an end *)

Lemma total_weight_insert R (l : list redis.pc) : forall i q p,
  l !! i = Some q ->
  redis_ext.total_weight R (<[i:=p]> l) + redis_ext.weight R q
  = redis_ext.total_weight R l + redis_ext.weight R p.
Proof.
  unfold redis_ext.total_weight.
  induction l as [|x l IH]; intros [|i] q p Hq; simpl in *;
    try discriminate.
  - inversion Hq; subst. lia.
  - specialize (IH i q p Hq). lia.
Qed.

Lemma total_weight_boot R url n :
  redis_ext.total_weight R (redis.tasks (redis.boot url n)) = n * (3 * R + 3).
Proof.
  unfold redis_ext.total_weight. simpl.
  induction n as [|n IH]; simpl in *; lia.
Qed.

Lemma attempt_tasks s i budget :
  exists p,
    redis.tasks (redis.attempt lib policy i budget s)
    = <[i:=p]> (redis.tasks s)
    /\ redis_ext.weight (redis.retries policy) p <= 3 * budget + 2.
Proof.
  destruct (attempt_shape s i budget) as [(_ & _ & ->) | ->].
  - destruct (enter_shape s i budget) as (g & lk & p & -> & _ & Hw & _).
    exists p. split; [reflexivity | lia].
  - eexists. split; [reflexivity|]. simpl. lia.
Qed.

Lemma step_weight s a s' :
  redis.step lib policy s a = Some s' ->
  redis_ext.total_weight (redis.retries policy) (redis.tasks s')
  < redis_ext.total_weight (redis.retries policy) (redis.tasks s).
Proof.
  intros H. destruct a as [i | i | i r | i]; simpl in H.
  - destruct (redis.tasks s !! i) as [[]|] eqn:Hi; try discriminate.
    destruct (redis.needs_init (redis.globals s)); inversion H; subst.
    + destruct (attempt_tasks s i (redis.retries policy)) as (p & -> & Hw).
      pose proof (total_weight_insert (redis.retries policy) _ _ _ p Hi).
      simpl in *. lia.
    + pose proof (total_weight_insert (redis.retries policy) _ _ _
                    (redis.Returned (redis.client (redis.globals s))) Hi).
      simpl in *. lia.
  - destruct (redis.tasks s !! i) as [[]|] eqn:Hi; try discriminate.
    destruct (redis.waiters s) as [|j rest]; try discriminate.
    destruct (redis.locked s); try discriminate.
    destruct (bool_decide (i = j)); inversion H; subst.
    destruct (enter_shape
                (redis.System (redis.globals s) false rest (redis.tasks s))
                i budget) as (g & lk & p & -> & _ & Hw & _).
    pose proof (total_weight_insert (redis.retries policy) _ _ _ p Hi).
    simpl in *. lia.
  - destruct (redis.tasks s !! i) as [[]|] eqn:Hi; try discriminate.
    inversion H; subst.
    match goal with |- context [redis.leave _ _ _ ?r _] =>
      destruct (leave_shape s i budget r) as (g & p & -> & _ & _ & Hw) end.
    pose proof (total_weight_insert (redis.retries policy) _ _ _ p Hi).
    simpl in *. lia.
  - destruct (redis.tasks s !! i) as [[]|] eqn:Hi; try discriminate.
    inversion H; subst.
    destruct (attempt_tasks s i budget) as (p & -> & Hw).
    pose proof (total_weight_insert (redis.retries policy) _ _ _ p Hi).
    simpl in *. lia.
Qed.

Lemma exec_weight schedule : forall s s',
  redis.exec lib policy s schedule = Some s' ->
  length schedule
  + redis_ext.total_weight (redis.retries policy) (redis.tasks s')
  <= redis_ext.total_weight (redis.retries policy) (redis.tasks s).
Proof.
  induction schedule as [|a rest IH]; intros s s' H; simpl in H.
  - inversion H; subst. simpl. lia.
  - destruct (redis.step lib policy s a) as [s1|] eqn:Hs; [|discriminate].
    apply IH in H. apply step_weight in Hs. simpl. lia.
Qed.

(** No call of [get_client] keeps the others busy for ever: whatever
    the pings answer, [n] concurrent first calls take at most three
    steps per allowed attempt each (queue for the lock, take it, hear
    from the ping), so every interleaving has at most
    [n * 3 * (retries + 1)] steps. *)
Theorem concurrent_calls_take_bounded_steps
    (url : option string) (n : nat) (schedule : list redis.action)
    (s : redis.system) :
  redis.exec lib policy (redis.boot url n) schedule = Some s ->
  length schedule
  + redis_ext.total_weight (redis.retries policy) (redis.tasks s)
  <= n * (3 * redis.retries policy + 3).
Proof.
  intros H. apply exec_weight in H.
  by rewrite total_weight_boot in H.
Qed.

End RedisProgress.

(* witness of concurrent_calls_never_deadlock *)
Lemma concurrent_calls_never_deadlock_witness :
  exists s,
    redis.exec scenario.healthy scenario.three_attempts
      (redis.boot None 2) [redis.Call 0; redis.Call 1] = Some s
    /\ redis_ext.enabled scenario.healthy scenario.three_attempts s.
Proof.
  eexists. split; [reflexivity|].
  match goal with |- redis_ext.enabled _ _ ?s =>
    destruct (concurrent_calls_never_deadlock scenario.healthy
                scenario.three_attempts None 2
                [redis.Call 0; redis.Call 1] s eq_refl) as (H & _)
  end.
  apply (H 0 (redis.Sleeping 1)); reflexivity.
Defined.

(* witness of concurrent_calls_take_bounded_steps *)
Lemma concurrent_calls_take_bounded_steps_witness :
  5 + redis_ext.total_weight 2
        [redis.Returned (Some 0); redis.Returned (Some 0)]
  <= 2 * (3 * 2 + 3).
Proof.
  apply (concurrent_calls_take_bounded_steps scenario.healthy
           scenario.three_attempts (Some scenario.url) 2
           [redis.Call 0; redis.Call 1; redis.Pong 0 None; redis.Wake 1;
            redis.Pong 1 None]
           (redis.System
              (redis.World (Some 0) true (Some scenario.url) 1
                 [redis.EvFromUrl scenario.url 0; redis.EvPing 0 None;
                  redis.EvPing 0 None])
              false [] [redis.Returned (Some 0); redis.Returned (Some 0)])).
  reflexivity.
Defined.

(** * Further properties of the billing endpoints *)

Section BillingClock.

Lemma days_in_month_other_year y y' m :
  m <> 2%Z -> billing.days_in_month y' m = billing.days_in_month y m.
Proof.
  intros Hm. unfold billing.days_in_month.
  destruct (Z.eqb_spec m 2); [contradiction | reflexivity].
Qed.

Lemma days_in_february y :
  billing.days_in_month y 2 = if billing.is_leap y then 29%Z else 28%Z.
Proof. reflexivity. Qed.

Lemma replace_year_cases dt y :
  billing_ext.valid_date dt -> (1 <= y)%Z ->
  (((9999 < y)%Z
    \/ (billing.month dt = 2%Z /\ billing.day dt = 29%Z
        /\ billing.is_leap y = false))
   /\ exists e, billing.replace_year dt y = Raise e)
  \/ (~ ((9999 < y)%Z
         \/ (billing.month dt = 2%Z /\ billing.day dt = 29%Z
             /\ billing.is_leap y = false))
      /\ billing.replace_year dt y
         = Ok (billing.Datetime y (billing.month dt) (billing.day dt)
                 (billing.hour dt) (billing.minute dt) (billing.second dt)
                 (billing.microsecond dt))).
Proof.
  intros (Hy & Hm & Hd) Hy1. unfold billing.replace_year.
  destruct (Z.ltb_spec y 1) as [?|_]; [lia|].
  destruct (Z.ltb_spec 9999 y) as [Hbig|Hsmall]; simpl.
  { left. split; [by left | eauto]. }
  destruct (Z.ltb_spec (billing.day dt) 1) as [?|_]; [lia|]. simpl.
  destruct (Z.eq_dec (billing.month dt) 2%Z) as [Hfeb|Hnot].
  - rewrite Hfeb in *. rewrite days_in_february in *.
    destruct (billing.is_leap y) eqn:Hleap.
    + destruct (Z.ltb_spec 29 (billing.day dt)) as [Hlt|_].
      * destruct (billing.is_leap (billing.year dt)); lia.
      * right. split; [|reflexivity]. intros [?|(_ & _ & ?)]; [lia|done].
    + destruct (Z.ltb_spec 28 (billing.day dt)) as [Hlt|Hle].
      * left. split; [|eauto]. right. repeat split.
        destruct (billing.is_leap (billing.year dt)); lia.
      * right. split; [|reflexivity]. intros [?|(_ & ? & _)]; lia.
  - rewrite (days_in_month_other_year (billing.year dt) y _ Hnot).
    destruct (Z.ltb_spec (billing.days_in_month (billing.year dt)
                            (billing.month dt)) (billing.day dt)) as [?|_];
      [lia|].
    right. split; [|reflexivity]. intros [?|(? & _)]; [lia|done].
Qed.

(** [get_subscription] answers unless the calendar stands in the way:
    for a proper UTC date and a local year, it raises exactly when the
    UTC date is 29 February and the year after the local one is not a
    leap year, or when that year is past 9999.  Otherwise the period ends
    on the same UTC month, day and time of day, in the year after the
    local year (which need not be the year after the UTC one). *)
Theorem get_subscription_fails_on_leap_day
    (clk : billing.clock) (uid : string) :
  billing_ext.valid_date (billing.now_utc clk) ->
  (1 <= billing.year (billing.now_local clk))%Z ->
  ((exists e, billing.get_subscription clk uid = Raise e)
   <-> ((9999 <= billing.year (billing.now_local clk))%Z
        \/ (billing.month (billing.now_utc clk) = 2%Z
            /\ billing.day (billing.now_utc clk) = 29%Z
            /\ billing.is_leap (billing.year (billing.now_local clk) + 1)
               = false)))
  /\ (forall r, billing.get_subscription clk uid = Ok r ->
        billing.current_period_end r
        = Some (billing.Datetime
                  (billing.year (billing.now_local clk) + 1)
                  (billing.month (billing.now_utc clk))
                  (billing.day (billing.now_utc clk))
                  (billing.hour (billing.now_utc clk))
                  (billing.minute (billing.now_utc clk))
                  (billing.second (billing.now_utc clk))
                  (billing.microsecond (billing.now_utc clk)))).
Proof.
  intros Hv Hy. unfold billing.get_subscription.
  destruct (replace_year_cases (billing.now_utc clk)
              (billing.year (billing.now_local clk) + 1) Hv)
    as [(Hc & e & ->) | (Hc & ->)]; [lia| |].
  - split.
    + split; [|eauto]. intros _. destruct Hc as [?|?]; [left; lia | by right].
    + intros r H. discriminate.
  - split.
    + split.
      * intros (e & H). discriminate.
      * intros [?|?]; exfalso; apply Hc; [left; lia | by right].
    + intros r H. inversion H. reflexivity.
Qed.

End BillingClock.

(* witness of get_subscription_fails_on_leap_day *)
Lemma get_subscription_fails_on_leap_day_witness :
  (exists e,
     billing.get_subscription
       (billing.Clock scenario.leap_day scenario.leap_day) "alice"
     = Raise e)
  /\ (forall r,
        billing.get_subscription
          (billing.Clock (billing.Datetime 2030 1 1 0 30 0 0)
                         (billing.Datetime 2029 12 31 19 30 0 0)) "bob"
        = Ok r ->
        billing.current_period_end r
        = Some (billing.Datetime 2030 1 1 0 30 0 0)).
Proof.
  split.
  - destruct (get_subscription_fails_on_leap_day
                (billing.Clock scenario.leap_day scenario.leap_day) "alice")
      as (H & _).
    + repeat split; simpl; vm_compute; congruence.
    + simpl. lia.
    + apply H. right. repeat split.
  - destruct (get_subscription_fails_on_leap_day
                (billing.Clock (billing.Datetime 2030 1 1 0 30 0 0)
                               (billing.Datetime 2029 12 31 19 30 0 0)) "bob")
      as (_ & H).
    + repeat split; simpl; vm_compute; congruence.
    + simpl. lia.
    + exact H.
Defined.

(** * Properties of the pricing functions *)

Section PricingProps.

Variable fl : pricing.FloatOps.
Variable HARDCODED_MODEL_PRICES : list (string * (pricing.F fl * pricing.F fl)).
Variable MODEL_NAME_ALIASES : list (string * string).
Variable cost_per_token :
  string -> Z -> Z -> result (option (pricing.F fl) * option (pricing.F fl)).
Variable set_to_list : list string -> list string.

Example cost_of_an_alias :
  pricing.calculate_token_cost pricing.rationals pricing.sample_prices
    pricing.sample_aliases pricing.sample_cost_per_token
    (Some 1000000%Z) (Some 2000000%Z) "kimi"
  = (21000000000000 # 2000000000000).
Proof. reflexivity. Qed.

Example cost_through_litellm :
  pricing.calculate_token_cost pricing.rationals pricing.sample_prices
    pricing.sample_aliases pricing.sample_cost_per_token
    (Some 800000%Z) None "gemini"
  = (240000000000 # 160000000000).
Proof. reflexivity. Qed.

Example cost_of_an_unknown_model :
  pricing.calculate_token_cost pricing.rationals pricing.sample_prices
    pricing.sample_aliases pricing.sample_cost_per_token
    (Some 800000%Z) None "sonnet"
  = (0 # 1).
Proof. reflexivity. Qed.

Example replace_is_not_overlapping :
  pricing.remove_all "aa" "aaa" = "a"
  /\ pricing.remove_all "openrouter/" "openrouter/google/gemini"
     = "google/gemini".
Proof. split; reflexivity. Qed.

Lemma priced_dec name pt ct :
  pricing.priced fl cost_per_token name pt ct
  \/ ~ pricing.priced fl cost_per_token name pt ct.
Proof.
  unfold pricing.priced.
  destruct (cost_per_token name pt ct) as [[[p|] [c|]]|e]; eauto;
    right; intros (p' & c' & H); discriminate.
Qed.

Lemma first_cost_found l1 : forall name l2 pt ct p c,
  (forall x, x ∈ l1 -> ~ pricing.priced fl cost_per_token x pt ct) ->
  cost_per_token name pt ct = Ok (Some p, Some c) ->
  pricing.first_cost fl cost_per_token (l1 ++ name :: l2) pt ct = Some (p, c).
Proof.
  induction l1 as [|x l1 IH]; intros name l2 pt ct p c Hskip Hname; simpl.
  - by rewrite Hname.
  - assert (Hx : ~ pricing.priced fl cost_per_token x pt ct).
    { apply Hskip. by left. }
    assert (IH' := IH name l2 pt ct p c
                     (fun y Hy => Hskip y (list_elem_of_further _ _ _ Hy))
                     Hname).
    destruct (cost_per_token x pt ct) as [[[px|] [cx|]]|e] eqn:E;
      try exact IH'.
    exfalso. apply Hx. by exists px, cx.
Qed.

Lemma first_cost_none names : forall pt ct,
  (forall x, x ∈ names -> ~ pricing.priced fl cost_per_token x pt ct) ->
  pricing.first_cost fl cost_per_token names pt ct = None.
Proof.
  induction names as [|x names IH]; intros pt ct Hskip; simpl; [done|].
  assert (Hx : ~ pricing.priced fl cost_per_token x pt ct).
  { apply Hskip. by left. }
  assert (IH' := IH pt ct
                   (fun y Hy => Hskip y (list_elem_of_further _ _ _ Hy))).
  destruct (cost_per_token x pt ct) as [[[px|] [cx|]]|e] eqn:E;
    try exact IH'.
  exfalso. apply Hx. by exists px, cx.
Qed.

Lemma calculate_token_cost_fallback model pt ct :
  pricing.get_model_pricing fl HARDCODED_MODEL_PRICES model = None ->
  pricing.get_model_pricing fl HARDCODED_MODEL_PRICES
    (default model (pricing.dict_get model MODEL_NAME_ALIASES)) = None ->
  pricing.calculate_token_cost fl HARDCODED_MODEL_PRICES MODEL_NAME_ALIASES
    cost_per_token (Some pt) (Some ct) model
  = match pricing.first_cost fl cost_per_token
            (pricing.models_to_try model
               (default model (pricing.dict_get model MODEL_NAME_ALIASES)))
            pt ct with
    | Some (p, c) =>
        pricing.fmul fl (pricing.fadd fl p c) (pricing.TOKEN_PRICE_MULTIPLIER fl)
    | None => pricing.zero fl
    end.
Proof.
  intros H1 H2. unfold pricing.calculate_token_cost.
  cbv zeta. cbn [default from_option].
  rewrite H1, H2. reflexivity.
Qed.

(** An entry of the price table decides the cost: when the table has the
    model, or else the full name its alias stands for, the cost is
    [(prompt/1e6 * input + completion/1e6 * output) * 1.5] from that entry
    and litellm is not asked.  So an alias without an entry of its own
    costs exactly what its full name costs. *)
Theorem table_price_decides_the_cost
    (model : string) (prompt_tokens completion_tokens : Z)
    (input output p c : pricing.F fl) :
  pricing.or_else
    (pricing.get_model_pricing fl HARDCODED_MODEL_PRICES model)
    (pricing.get_model_pricing fl HARDCODED_MODEL_PRICES
       (default model (pricing.dict_get model MODEL_NAME_ALIASES)))
  = Some (input, output) ->
  pricing.per_million fl prompt_tokens = Some p ->
  pricing.per_million fl completion_tokens = Some c ->
  pricing.calculate_token_cost fl HARDCODED_MODEL_PRICES MODEL_NAME_ALIASES
    cost_per_token (Some prompt_tokens) (Some completion_tokens) model
  = pricing.fmul fl
      (pricing.fadd fl (pricing.fmul fl p input) (pricing.fmul fl c output))
      (pricing.TOKEN_PRICE_MULTIPLIER fl)
  /\ (forall full_name,
        pricing.dict_get model MODEL_NAME_ALIASES = Some full_name ->
        pricing.get_model_pricing fl HARDCODED_MODEL_PRICES model = None ->
        pricing.calculate_token_cost fl HARDCODED_MODEL_PRICES
          MODEL_NAME_ALIASES cost_per_token
          (Some prompt_tokens) (Some completion_tokens) model
        = pricing.calculate_token_cost fl HARDCODED_MODEL_PRICES
            MODEL_NAME_ALIASES cost_per_token
            (Some prompt_tokens) (Some completion_tokens) full_name).
Proof.
  intros Hprice Hp Hc.
  assert (Hcost : forall m,
    pricing.or_else
      (pricing.get_model_pricing fl HARDCODED_MODEL_PRICES m)
      (pricing.get_model_pricing fl HARDCODED_MODEL_PRICES
         (default m (pricing.dict_get m MODEL_NAME_ALIASES)))
    = Some (input, output) ->
    pricing.calculate_token_cost fl HARDCODED_MODEL_PRICES MODEL_NAME_ALIASES
      cost_per_token (Some prompt_tokens) (Some completion_tokens) m
    = pricing.fmul fl
        (pricing.fadd fl (pricing.fmul fl p input) (pricing.fmul fl c output))
        (pricing.TOKEN_PRICE_MULTIPLIER fl)).
  { intros m Hm. unfold pricing.calculate_token_cost. simpl.
    rewrite Hm, Hp, Hc. reflexivity. }
  split; [by apply Hcost|].
  intros full_name Halias Hnone.
  rewrite (Hcost model Hprice). symmetry. apply Hcost.
  rewrite Halias, Hnone in Hprice. simpl in Hprice.
  unfold pricing.or_else. by rewrite Hprice.
Qed.

(** Without an entry in the price table, litellm decides: the names of
    [models_to_try] are asked in order, a name for which litellm raises
    or lacks one of the two costs is passed over, and the first name with
    both costs gives [(prompt + completion) * 1.5]; the model's own name
    is asked first.  When no name has both costs the cost is [0.0]. *)
Theorem litellm_prices_by_first_known_name
    (model : string) (prompt_tokens completion_tokens : Z) :
  pricing.get_model_pricing fl HARDCODED_MODEL_PRICES model = None ->
  pricing.get_model_pricing fl HARDCODED_MODEL_PRICES
    (default model (pricing.dict_get model MODEL_NAME_ALIASES)) = None ->
  (forall l1 name l2 p c,
     pricing.models_to_try model
       (default model (pricing.dict_get model MODEL_NAME_ALIASES))
     = (l1 ++ name :: l2)%list ->
     (forall x, x ∈ l1 ->
        ~ pricing.priced fl cost_per_token x prompt_tokens completion_tokens) ->
     cost_per_token name prompt_tokens completion_tokens
     = Ok (Some p, Some c) ->
     pricing.calculate_token_cost fl HARDCODED_MODEL_PRICES MODEL_NAME_ALIASES
       cost_per_token (Some prompt_tokens) (Some completion_tokens) model
     = pricing.fmul fl (pricing.fadd fl p c)
         (pricing.TOKEN_PRICE_MULTIPLIER fl))
  /\ (forall p c,
        cost_per_token model prompt_tokens completion_tokens
        = Ok (Some p, Some c) ->
        pricing.calculate_token_cost fl HARDCODED_MODEL_PRICES
          MODEL_NAME_ALIASES cost_per_token
          (Some prompt_tokens) (Some completion_tokens) model
        = pricing.fmul fl (pricing.fadd fl p c)
            (pricing.TOKEN_PRICE_MULTIPLIER fl))
  /\ ((forall x,
         x ∈ pricing.models_to_try model
               (default model (pricing.dict_get model MODEL_NAME_ALIASES)) ->
         ~ pricing.priced fl cost_per_token x prompt_tokens completion_tokens)
      -> pricing.calculate_token_cost fl HARDCODED_MODEL_PRICES
           MODEL_NAME_ALIASES cost_per_token
           (Some prompt_tokens) (Some completion_tokens) model
         = pricing.zero fl).
Proof.
  intros H1 H2.
  assert (Hfound : forall l1 name l2 p c,
    pricing.models_to_try model
      (default model (pricing.dict_get model MODEL_NAME_ALIASES))
    = (l1 ++ name :: l2)%list ->
    (forall x, x ∈ l1 ->
       ~ pricing.priced fl cost_per_token x prompt_tokens completion_tokens) ->
    cost_per_token name prompt_tokens completion_tokens
    = Ok (Some p, Some c) ->
    pricing.calculate_token_cost fl HARDCODED_MODEL_PRICES MODEL_NAME_ALIASES
      cost_per_token (Some prompt_tokens) (Some completion_tokens) model
    = pricing.fmul fl (pricing.fadd fl p c)
        (pricing.TOKEN_PRICE_MULTIPLIER fl)).
  { intros l1 name l2 p c Hsplit Hskip Hname.
    rewrite (calculate_token_cost_fallback _ _ _ H1 H2).
    rewrite Hsplit, (first_cost_found l1 name l2 _ _ p c Hskip Hname).
    reflexivity. }
  split; [exact Hfound|]. split.
  - intros p c Hmodel.
    eapply (Hfound [] model); [reflexivity | | exact Hmodel].
    intros x Hx. by apply elem_of_nil in Hx.
  - intros Hnone. rewrite (calculate_token_cost_fallback _ _ _ H1 H2).
    by rewrite (first_cost_none _ _ _ Hnone).
Qed.

(** *** The model catalogue *)

Example catalogue_of_the_sample :
  pricing.get_allowed_models_for_user pricing.sample_aliases remove_dups "u"
  = ["openrouter/moonshotai/kimi-k2"; "openrouter/google/gemini-2.5-pro";
     "anthropic/claude-sonnet-4"]
  /\ pricing.display_name pricing.rationals
     <$> pricing.models pricing.rationals
           (pricing.get_available_models pricing.rationals
              pricing.sample_prices pricing.sample_aliases
              pricing.sample_cost_per_token remove_dups "u")
     = ["kimi"; "gemini"; "sonnet"].
Proof. split; reflexivity. Qed.

(** Every user is allowed the same models: the full names the alias
    table points to, each listed once, whatever order the set yields
    them in. *)
Theorem allowed_models_are_the_alias_targets (user_id : string) :
  pricing.iterates_sets set_to_list ->
  NoDup (pricing.get_allowed_models_for_user MODEL_NAME_ALIASES set_to_list
           user_id)
  /\ (forall full_name,
        full_name ∈ pricing.get_allowed_models_for_user MODEL_NAME_ALIASES
                      set_to_list user_id
        <-> exists short_name, (short_name, full_name) ∈ MODEL_NAME_ALIASES)
  /\ (forall other_user,
        pricing.get_allowed_models_for_user MODEL_NAME_ALIASES set_to_list
          other_user
        = pricing.get_allowed_models_for_user MODEL_NAME_ALIASES set_to_list
            user_id).
Proof.
  intros Hset. unfold pricing.get_allowed_models_for_user.
  split; [|split; [|reflexivity]].
  - rewrite (Hset _). apply NoDup_remove_dups.
  - intros full_name. rewrite (Hset _), elem_of_remove_dups, list_elem_of_fmap.
    split.
    + intros ([k v] & -> & Hin). by exists k.
    + intros (k & Hin). by exists (k, full_name).
Qed.

Lemma or_else_none {A} (a : option A) : pricing.or_else a None = a.
Proof. by destruct a. Qed.

Lemma dict_get_snoc {V} (m f : string) (v : V) acc :
  pricing.dict_get m (acc ++ [(f, v)])
  = pricing.or_else (pricing.dict_get m acc)
      (if String.eqb m f then Some v else None).
Proof.
  induction acc as [|[k x] acc IH]; simpl; [reflexivity|].
  destruct (String.eqb m k); [reflexivity | exact IH].
Qed.

Lemma collect_aliases_get m items : forall acc,
  pricing.dict_get m (pricing.collect_aliases items acc)
  = pricing.or_else (pricing.dict_get m acc)
      (pricing.first_usable_alias m items).
Proof.
  unfold pricing.first_usable_alias.
  induction items as [|[s f] items IH]; intros acc; simpl.
  - by rewrite or_else_none.
  - rewrite IH. destruct (pricing.usable_alias s f) eqn:Hu.
    + rewrite andb_true_r.
      destruct (pricing.dict_get f acc) as [v|] eqn:Hf.
      * destruct (String.eqb_spec f m) as [->|Hne]; [|reflexivity].
        by rewrite Hf.
      * rewrite dict_get_snoc.
        destruct (String.eqb_spec f m) as [->|Hne].
        -- by rewrite Hf, String.eqb_refl.
        -- rewrite (proj2 (String.eqb_neq m f)) by congruence.
           by rewrite or_else_none.
    + by rewrite andb_false_r.
Qed.

(** The catalogue of [get_available_models] lists exactly the models
    [get_allowed_models_for_user] allows, each once, and counts them in
    [total_models]; every model is available without subscription.  The
    short name of a model is the first alias of the table, in table
    order, that differs from the full name and does not start with a
    provider prefix; the display name is that short name, or without one
    the part of the full name after its last slash. *)
Theorem catalogue_lists_every_model_once (current_user_id : string) :
  pricing.iterates_sets set_to_list ->
  let response :=
    pricing.get_available_models fl HARDCODED_MODEL_PRICES MODEL_NAME_ALIASES
      cost_per_token set_to_list current_user_id in
  pricing.id fl <$> pricing.models fl response
  = pricing.get_allowed_models_for_user MODEL_NAME_ALIASES set_to_list
      current_user_id
  /\ NoDup (pricing.id fl <$> pricing.models fl response)
  /\ pricing.total_models fl response
     = length (remove_dups (snd <$> MODEL_NAME_ALIASES))
  /\ forall entry, entry ∈ pricing.models fl response ->
       pricing.is_available fl entry = true
       /\ pricing.requires_subscription fl entry = false
       /\ pricing.short_name fl entry
          = pricing.first_usable_alias (pricing.id fl entry) MODEL_NAME_ALIASES
       /\ pricing.display_name fl entry
          = default
              (if pricing.contains_slash (pricing.id fl entry)
               then pricing.last_segment (pricing.id fl entry)
               else pricing.id fl entry)
              (pricing.first_usable_alias (pricing.id fl entry)
                 MODEL_NAME_ALIASES).
Proof.
  intros Hset response.
  assert (Hids : pricing.id fl <$> pricing.models fl response
                 = pricing.get_allowed_models_for_user MODEL_NAME_ALIASES
                     set_to_list current_user_id).
  { unfold response, pricing.get_available_models,
           pricing.get_allowed_models_for_user. simpl.
    rewrite <- list_fmap_compose. apply list_fmap_id. }
  split; [exact Hids|]. split; [|split].
  - rewrite Hids.
    by apply (allowed_models_are_the_alias_targets current_user_id).
  - unfold response, pricing.get_available_models. simpl.
    rewrite length_fmap. by rewrite (Hset _).
  - intros entry Hin.
    unfold response, pricing.get_available_models in Hin. simpl in Hin.
    apply list_elem_of_fmap in Hin as (model & -> & _).
    unfold pricing.model_info_of. simpl.
    rewrite collect_aliases_get. simpl. auto.
Qed.

End PricingProps.

(* witness of table_price_decides_the_cost *)
Lemma table_price_decides_the_cost_witness :
  pricing.calculate_token_cost pricing.rationals pricing.sample_prices
    pricing.sample_aliases pricing.sample_cost_per_token
    (Some 1000000%Z) (Some 2000000%Z) "kimi"
  = pricing.calculate_token_cost pricing.rationals pricing.sample_prices
      pricing.sample_aliases pricing.sample_cost_per_token
      (Some 1000000%Z) (Some 2000000%Z) "openrouter/moonshotai/kimi-k2".
Proof.
  destruct (table_price_decides_the_cost pricing.rationals
              pricing.sample_prices pricing.sample_aliases
              pricing.sample_cost_per_token "kimi" 1000000 2000000
              (1 # 1) (3 # 1) (1000000 # 1000000) (2000000 # 1000000)
              eq_refl eq_refl eq_refl)
    as (_ & H).
  apply H; reflexivity.
Defined.

(* witness of litellm_prices_by_first_known_name *)
Lemma litellm_prices_by_first_known_name_witness :
  pricing.calculate_token_cost pricing.rationals pricing.sample_prices
    pricing.sample_aliases pricing.sample_cost_per_token
    (Some 800000%Z) (Some 0%Z) "gemini"
  = Qmult (Qplus (800000 # 800000) (0 # 100000)) (3 # 2)
  /\ pricing.calculate_token_cost pricing.rationals pricing.sample_prices
       pricing.sample_aliases pricing.sample_cost_per_token
       (Some 800000%Z) (Some 0%Z) "sonnet"
     = (0 # 1).
Proof.
  split.
  - destruct (litellm_prices_by_first_known_name pricing.rationals
                pricing.sample_prices pricing.sample_aliases
                pricing.sample_cost_per_token "gemini" 800000 0
                eq_refl eq_refl)
      as (H & _ & _).
    apply (H ["gemini"; "openrouter/google/gemini-2.5-pro"]
             "google/gemini-2.5-pro" ["google/gemini-2.5-pro"]);
      [reflexivity | | reflexivity].
    intros x Hx (p & c & Hpc).
    apply elem_of_cons in Hx as [->|Hx]; [discriminate|].
    apply list_elem_of_singleton in Hx as ->. discriminate.
  - destruct (litellm_prices_by_first_known_name pricing.rationals
                pricing.sample_prices pricing.sample_aliases
                pricing.sample_cost_per_token "sonnet" 800000 0
                eq_refl eq_refl)
      as (_ & _ & H).
    apply H. intros x Hx (p & c & Hpc).
    repeat (apply elem_of_cons in Hx as [->|Hx]; [discriminate|]).
    by apply elem_of_nil in Hx.
Defined.

Lemma remove_dups_iterates : pricing.iterates_sets remove_dups.
Proof. intros l. reflexivity. Qed.

(* witness of allowed_models_are_the_alias_targets *)
Lemma allowed_models_are_the_alias_targets_witness :
  NoDup (pricing.get_allowed_models_for_user pricing.sample_aliases
           remove_dups "alice")
  /\ exists short_name,
       (short_name, "openrouter/google/gemini-2.5-pro")
       ∈ pricing.sample_aliases.
Proof.
  destruct (allowed_models_are_the_alias_targets pricing.sample_aliases
              remove_dups "alice" remove_dups_iterates) as (Hnd & Hin & _).
  split; [exact Hnd|].
  apply Hin. vm_compute. do 1 constructor. constructor.
Defined.

(* witness of catalogue_lists_every_model_once *)
Lemma catalogue_lists_every_model_once_witness :
  pricing.total_models pricing.rationals
    (pricing.get_available_models pricing.rationals pricing.sample_prices
       pricing.sample_aliases pricing.sample_cost_per_token remove_dups
       "alice")
  = length (remove_dups (snd <$> pricing.sample_aliases)).
Proof.
  destruct (catalogue_lists_every_model_once pricing.rationals
              pricing.sample_prices pricing.sample_aliases
              pricing.sample_cost_per_token remove_dups "alice"
              remove_dups_iterates) as (_ & _ & H & _).
  exact H.
Defined.
